(** * Minesweeper knowledge engine: a shallow embedding of [minesweeper.py]

    The classes [Minesweeper], [Sentence] and [MinesweeperAI] are embedded
    as Rocq functions.  Python sets of cells are [gset (Z * Z)], Python integers are
    [Z].  Sentences are mutable objects shared between the knowledge list
    and the snapshots taken by [list.copy()], so the engine state carries an
    object store ([heap]) and the knowledge list holds references into it.
    Operations that can raise, or loop, return an [outcome].  A loop over
    a Python set visits [elements] of the set; the loops do not depend on
    the order (section "Loops over sets").  The choices of [set.pop()] and
    [random.choice] are arguments of the move selectors. *)

From stdpp Require Import gmap list.

#[local] Set Warnings "-clear-no-such-hyp".

Open Scope Z_scope.

(** A board cell is the Python tuple [(i, j)]. *)
Abbreviation cell := (Z * Z)%type.

(** References to [Sentence] objects. *)
Abbreviation loc := nat.

(** ** Outcomes of operations *)

Inductive error :=
  | ValueError   (* list.remove(x): x not in list *)
  | NoObject     (* a reference that denotes no object; Python has none *)
  | OutOfFuel.   (* the bound on loop iterations was exhausted *)

Inductive outcome (A : Type) :=
  | Ok (a : A)
  | Raise (e : error).
Arguments Ok {A} a.
Arguments Raise {A} e.

#[global] Instance outcome_ret : MRet outcome := λ A a, Ok a.
#[global] Instance outcome_bind : MBind outcome := λ A B f m,
  match m with
  | Ok a => f a
  | Raise e => Raise e
  end.

(** [for x in l: body], threading the state through the iterations. *)
Fixpoint for_each {A S : Type} (body : A → S → outcome S) (l : list A) (s : S)
  : outcome S :=
  match l with
  | [] => Ok s
  | x :: l' => s' ← body x s; for_each body l' s'
  end.

(** [range(a, b)]. *)
Definition range (a b : Z) : list Z := seqZ a (b - a).

(** ** Python values that the source compares with [==] across types *)

Inductive pyval :=
  | PySet (s : gset cell)
  | PyInt (z : Z).

(** [a == b]: a set and an integer are never equal. *)
Definition py_eq (a b : pyval) : bool :=
  match a, b with
  | PySet x, PySet y => bool_decide (x = y)
  | PyInt x, PyInt y => bool_decide (x = y)
  | _, _ => false
  end.

(** [a or b] on sets: the first operand when it is truthy (non-empty),
    otherwise the second. *)
Definition py_or (a b : gset cell) : gset cell :=
  if bool_decide (a = ∅) then b else a.

(** [len(s)] as a Python integer. *)
Definition len (s : gset cell) : Z := Z.of_nat (size s).

(** ** class Sentence *)

Record Sentence := mkSentence { cells : gset cell; count : Z }.

#[global] Instance Sentence_eq_dec : EqDecision Sentence.
Proof. solve_decision. Defined.

Module Sentence.

(** [__eq__] *)
Definition eq (self other : Sentence) : bool :=
  bool_decide (cells self = cells other) && bool_decide (count self = count other).

(** [!=] is the negation of [__eq__]. *)
Definition ne (self other : Sentence) : bool := negb (eq self other).

Definition known_mines (self : Sentence) : option (gset cell) :=
  if bool_decide (len (cells self) = count self) then Some (cells self) else None.

Definition known_safes (self : Sentence) : option (gset cell) :=
  if py_eq (PySet (cells self)) (PyInt 0) then Some (cells self) else None.

Definition mark_mine (c : cell) (self : Sentence) : Sentence :=
  if bool_decide (c ∈ cells self)
  then mkSentence (cells self ∖ {[c]}) (count self - 1)
  else self.

Definition mark_safe (c : cell) (self : Sentence) : Sentence :=
  if bool_decide (c ∈ cells self)
  then mkSentence (cells self ∖ {[c]}) (count self)
  else self.

End Sentence.

(** ** class MinesweeperAI *)

Record AI := mkAI {
  height : Z;
  width : Z;
  moves_made : gset cell;
  mines : gset cell;
  safes : gset cell;
  heap : list Sentence;      (* the Sentence objects, by reference *)
  knowledge : list loc       (* self.knowledge: a list of references *)
}.

#[global] Instance AI_eq_dec : EqDecision AI.
Proof. solve_decision. Defined.

Definition set_moves_made (f : gset cell → gset cell) (st : AI) : AI :=
  mkAI (height st) (width st) (f (moves_made st)) (mines st) (safes st)
       (heap st) (knowledge st).
Definition set_mines (f : gset cell → gset cell) (st : AI) : AI :=
  mkAI (height st) (width st) (moves_made st) (f (mines st)) (safes st)
       (heap st) (knowledge st).
Definition set_safes (f : gset cell → gset cell) (st : AI) : AI :=
  mkAI (height st) (width st) (moves_made st) (mines st) (f (safes st))
       (heap st) (knowledge st).
Definition set_heap (f : list Sentence → list Sentence) (st : AI) : AI :=
  mkAI (height st) (width st) (moves_made st) (mines st) (safes st)
       (f (heap st)) (knowledge st).
Definition set_knowledge (f : list loc → list loc) (st : AI) : AI :=
  mkAI (height st) (width st) (moves_made st) (mines st) (safes st)
       (heap st) (f (knowledge st)).

(** Reading and writing a Sentence object through a reference. *)
Definition deref (l : loc) (st : AI) : outcome Sentence :=
  match heap st !! l with
  | Some s => Ok s
  | None => Raise NoObject
  end.

Definition store (l : loc) (s : Sentence) (st : AI) : AI :=
  set_heap (λ h, <[l := s]> h) st.

(** [lst.remove(x)]: drops the first item that is [x] itself or equal to it
    by [__eq__]; raises ValueError when there is none. *)
Fixpoint list_remove (st : AI) (x : loc) (lst : list loc) : outcome (list loc) :=
  match lst with
  | [] => Raise ValueError
  | item :: rest =>
      a ← deref item st;
      b ← deref x st;
      if bool_decide (item = x) || Sentence.eq a b
      then Ok rest
      else rest' ← list_remove st x rest; Ok (item :: rest')
  end.

Module MinesweeperAI.

(** [MinesweeperAI(height, width)] *)
Definition init (height width : Z) : AI :=
  mkAI height width ∅ ∅ ∅ [] [].

(** The two loops that [mark_mine] and [mark_safe] share verbatim: apply
    the Sentence-level update to every sentence of a snapshot of the
    knowledge list, collect those left without cells, then remove them
    from the knowledge list. *)
Definition update_all (upd : Sentence → Sentence) (st : AI) : outcome AI :=
  let copy_knowledge := knowledge st in
  '(st, empty) ← for_each (λ sentence '(st, empty),
      s ← deref sentence st;
      let st := store sentence (upd s) st in
      s ← deref sentence st;
      if bool_decide (len (cells s) = 0)
      then Ok (st, empty ++ [sentence])
      else Ok (st, empty)) copy_knowledge (st, []);
  for_each (λ sentence st,
      k ← list_remove st sentence (knowledge st);
      Ok (set_knowledge (λ _, k) st)) empty st.

Definition mark_mine (c : cell) (st : AI) : outcome AI :=
  let st := set_mines (λ m, {[c]} ∪ m) st in
  update_all (Sentence.mark_mine c) st.

Definition mark_safe (c : cell) (st : AI) : outcome AI :=
  let st := set_safes (λ m, {[c]} ∪ m) st in
  update_all (Sentence.mark_safe c) st.

Definition mark_mines_safes (st : AI) : outcome AI :=
  let copy_knowledge := knowledge st in
  for_each (λ sentence st,
      s ← deref sentence st;
      if bool_decide (len (cells s) = count s) then
        let copy_cells := cells s in
        for_each mark_mine (elements copy_cells) st
      else if bool_decide (count s = 0) then
        let copy_cells := cells s in
        for_each mark_safe (elements copy_cells) st
      else Ok st) copy_knowledge st.

(** The body of the double loop of [draw_interferences] for one ordered
    pair of references.  In the branch that assigns, [sentence1] and
    [sentence2] differ by [__eq__], so they are different objects and the
    two assignments to [sentence2] read an unchanged [sentence1]. *)
Definition resolve_pair (sentence1 sentence2 : loc) (acc : AI * bool)
  : outcome (AI * bool) :=
  let '(st, drawn) := acc in
  s1 ← deref sentence1 st;
  s2 ← deref sentence2 st;
  if Sentence.ne s1 s2 && negb (bool_decide (len (cells s1) = 0))
                       && negb (bool_decide (len (cells s2) = 0)) then
    if bool_decide (cells s1 ⊆ cells s2) then
      Ok (store sentence2
            (mkSentence (cells s2 ∖ cells s1) (count s2 - count s1)) st,
          true)
    else Ok (st, drawn)
  else Ok (st, drawn).

(** One execution of the two nested [for] loops, starting with
    [drawn = False]. *)
Definition scan_pairs (st : AI) : outcome (AI * bool) :=
  let copy_knowledge := knowledge st in
  for_each (λ sentence1 acc,
      for_each (λ sentence2 acc, resolve_pair sentence1 sentence2 acc)
               copy_knowledge acc)
    copy_knowledge (st, false).

(** One iteration of the [while drawn] loop: the flag it computes and the
    state after [mark_mines_safes]. *)
Definition pass (st : AI) : outcome (AI * bool) :=
  '(st, drawn) ← scan_pairs st;
  st ← mark_mines_safes st;
  Ok (st, drawn).

(** [while drawn: ...] with a bound on the number of iterations. *)
Fixpoint draw_loop (fuel : nat) (st : AI) : outcome AI :=
  match fuel with
  | O => Raise OutOfFuel
  | S fuel' =>
      '(st, drawn) ← pass st;
      if drawn : bool then draw_loop fuel' st else Ok st
  end.

(** Number of (sentence, cell) memberships in the knowledge list. *)
Definition kb_size (st : AI) : nat :=
  sum_list_with (λ l, from_option (λ s, size (cells s)) 0%nat (heap st !! l))
                (knowledge st).

(** [draw_interferences]: the loop, with a bound that it does not reach
    (lemma [draw_interferences_steps]). *)
Definition draw_interferences (st : AI) : outcome AI :=
  draw_loop (S (kb_size st)) st.

(** The neighbours of [c] inside the board. *)
Definition neighbors (height width : Z) (c : cell) : gset cell :=
  let '(i, j) := c in
  foldl (λ acc row,
      foldl (λ acc col,
          if bool_decide (0 ≤ row < height) && bool_decide (0 ≤ col < width)
             && negb (bool_decide ((row, col) = c))
          then {[(row, col)]} ∪ acc else acc)
        acc (range (j - 1) (j + 2)))
    ∅ (range (i - 1) (i + 2)).

(** The loop of [add_knowledge] that filters the neighbours; it yields
    the arguments of [Sentence(cells, count)]. *)
Definition new_sentence (st : AI) (neighbor_cells : gset cell) (count : Z)
  : gset cell * Z :=
  foldl (λ '(cells, count) neighbor,
      if negb (bool_decide
                 (neighbor ∈ py_or (py_or (moves_made st) (mines st)) (safes st)))
      then ({[neighbor]} ∪ cells, count)
      else if bool_decide (neighbor ∈ mines st)
      then (cells, count - 1)
      else (cells, count))
    (∅, count) (elements neighbor_cells).

Definition add_knowledge (c : cell) (count : Z) (st : AI) : outcome AI :=
  (* 1) mark the cell as a move that has been made *)
  let st := set_moves_made (λ m, {[c]} ∪ m) st in
  (* 2) mark the cell as safe *)
  st ← mark_safe c st;
  (* 3) add a new sentence *)
  let neighbor_cells := neighbors (height st) (width st) c in
  let '(cells, count) := new_sentence st neighbor_cells count in
  st ← (if bool_decide (count = 0) then
          for_each (λ neighbor st,
              mark_safe neighbor (set_safes (λ m, {[neighbor]} ∪ m) st))
            (elements cells) st
        else if bool_decide (len cells = count) then
          for_each (λ neighbor st,
              mark_mine neighbor (set_mines (λ m, {[neighbor]} ∪ m) st))
            (elements cells) st
        else Ok st);
  let new_sentence := length (heap st) in
  let st := set_heap (λ h, h ++ [mkSentence cells count]) st in
  let st := set_knowledge (λ k, k ++ [new_sentence]) st in
  (* 4) mark additional cells *)
  st ← mark_mines_safes st;
  (* 5) infer new sentences *)
  draw_interferences st.

(** [make_safe_move]; [pick] resolves the choice made by [set.pop()].
    The state is returned next to the result. *)
Definition make_safe_move (pick : nat) (st : AI) : option cell * AI :=
  let safe_cells := safes st ∖ moves_made st in
  if bool_decide (safe_cells = ∅) then (None, st)
  else (elements safe_cells !! (pick `mod` size safe_cells)%nat, st).

(** [make_random_move]; [rnd] resolves [random.choice]. *)
Definition make_random_move (rnd : nat) (st : AI) : option cell * AI :=
  let cells :=
    foldl (λ cells row,
        foldl (λ cells col,
            let c := (row, col) in
            if negb (bool_decide (c ∈ moves_made st))
               && negb (bool_decide (c ∈ mines st))
            then cells ++ [c] else cells)
          cells (range 0 (width st)))
      [] (range 0 (height st)) in
  if bool_decide (cells ≠ []) then (cells !! (rnd `mod` length cells)%nat, st)
  else (None, st).

End MinesweeperAI.

(** ** class Minesweeper

    The game that the engine plays.  The numbers that [random.randrange]
    draws are an argument of the constructor, a pair for every iteration
    of its loop. *)

Module Minesweeper.

Inductive exception :=
  | IndexError     (* list index out of range *)
  | ValueError     (* random.randrange(n) with n <= 0 *)
  | NoMoreDraws.   (* the random numbers given to the model are used up *)

Inductive result (A : Type) :=
  | Return (a : A)
  | Throw (e : exception).
Arguments Return {A} a.
Arguments Throw {A} e.

#[global] Instance result_ret : MRet result := λ A a, Return a.
#[global] Instance result_bind : MBind result := λ A B f m,
  match m with
  | Return a => f a
  | Throw e => Throw e
  end.

(** [for x in l: body] *)
Fixpoint for_loop {A S : Type} (body : A → S → result S) (l : list A) (s : S)
  : result S :=
  match l with
  | [] => Return s
  | x :: l' => s' ← body x s; for_loop body l' s'
  end.

(** [l[i]]; a negative index counts from the end of the list. *)
Definition getitem {A : Type} (l : list A) (i : Z) : result A :=
  let k := if bool_decide (i < 0) then i + Z.of_nat (length l) else i in
  if bool_decide (0 ≤ k) then
    match l !! Z.to_nat k with
    | Some a => Return a
    | None => Throw IndexError
    end
  else Throw IndexError.

(** [l[i] = a] *)
Definition setitem {A : Type} (l : list A) (i : Z) (a : A) : result (list A) :=
  let k := if bool_decide (i < 0) then i + Z.of_nat (length l) else i in
  if bool_decide (0 ≤ k < Z.of_nat (length l))
  then Return (<[Z.to_nat k := a]> l)
  else Throw IndexError.

(** [board[i][j]] *)
Definition board_at (board : list (list bool)) (i j : Z) : result bool :=
  row ← getitem board i; getitem row j.

Record Game := mkGame {
  height : Z;
  width : Z;
  mines : gset cell;
  board : list (list bool);
  mines_found : gset cell
}.

(** [random.randrange(n)]; [r] is the random number that it draws. *)
Definition randrange (n : Z) (r : nat) : result Z :=
  if bool_decide (n ≤ 0) then Throw ValueError else Return (Z.of_nat r `mod` n).

(** The empty field of [__init__]. *)
Definition empty_board (height width : Z) : list (list bool) :=
  foldl (λ board _,
      board ++ [foldl (λ row _, row ++ [false]) [] (range 0 width)])
    [] (range 0 height).

(** The loop of [__init__] that adds the mines, on [self.mines] and
    [self.board]. *)
Fixpoint place (height width mines : Z) (draws : list (nat * nat))
    (self : gset cell * list (list bool))
  : result (gset cell * list (list bool)) :=
  let '(self_mines, self_board) := self in
  if bool_decide (len self_mines ≠ mines) then
    match draws with
    | [] => Throw NoMoreDraws
    | (r1, r2) :: draws =>
        i ← randrange height r1;
        j ← randrange width r2;
        b ← board_at self_board i j;
        if negb b then
          row ← getitem self_board i;
          row ← setitem row j true;
          self_board ← setitem self_board i row;
          place height width mines draws ({[(i, j)]} ∪ self_mines, self_board)
        else place height width mines draws self
    end
  else Return self.

(** [__init__] *)
Definition init (height width mines : Z) (draws : list (nat * nat))
  : result Game :=
  self ← place height width mines draws (∅, empty_board height width);
  Return (mkGame height width self.1 self.2 ∅).

Definition is_mine (self : Game) (c : cell) : result bool :=
  let '(i, j) := c in board_at (board self) i j.

Definition nearby_mines (self : Game) (c : cell) : result Z :=
  for_loop (λ i count,
      for_loop (λ j count,
          if bool_decide ((i, j) = c) then Return count
          else if bool_decide (0 ≤ i < height self)
                  && bool_decide (0 ≤ j < width self)
          then b ← board_at (board self) i j;
               Return (if b : bool then count + 1 else count)
          else Return count)
        (range (c.2 - 1) (c.2 + 2)) count)
    (range (c.1 - 1) (c.1 + 2)) 0.

Definition won (self : Game) : bool :=
  bool_decide (mines_found self = mines self).

End Minesweeper.

(** * Specification

    The predicates and relations in which the properties of the engine are
    stated. *)

Import MinesweeperAI.

(** ** Well-formed states *)

(** Every reference of the knowledge list denotes an object. *)
Definition wf (st : AI) : Prop :=
  ∀ l, l ∈ knowledge st → (l < length (heap st))%nat.

#[global] Instance wf_dec st : Decision (wf st).
Proof.
  destruct (decide (Forall (λ l, (l < length (heap st))%nat) (knowledge st)))
    as [H|H].
  - left. intros l Hl. rewrite Forall_forall in H. by apply H.
  - right. intros Hwf. apply H. rewrite Forall_forall. exact Hwf.
Defined.

(** ** What the marking operations compute *)

(** The store after [upd] was applied to the objects referenced by [k]. *)
Definition heap_map (upd : Sentence → Sentence) (k : list loc)
    (h : list Sentence) : list Sentence :=
  imap (λ l s, if bool_decide (l ∈ k) then upd s else s) h.

(** The object at [l] has no cells. *)
Definition emptyb (h : list Sentence) (l : loc) : bool :=
  match h !! l with
  | Some s => bool_decide (cells s = ∅)
  | None => false
  end.

(** What [update_all] computes, without the loops. *)
Definition updated (upd : Sentence → Sentence) (st : AI) : AI :=
  let h := heap_map upd (knowledge st) (heap st) in
  mkAI (height st) (width st) (moves_made st) (mines st) (safes st)
       h (filter (λ l, emptyb h l = false) (knowledge st)).

(** A sentence after all cells of [X] were marked as mines, and as safe. *)
Definition without_mines (X : gset cell) (s : Sentence) : Sentence :=
  mkSentence (cells s ∖ X) (count s - len (cells s ∩ X)).

Definition without_safes (X : gset cell) (s : Sentence) : Sentence :=
  mkSentence (cells s ∖ X) (count s).

(** What [mark_mine] and [mark_safe] do to the knowledge base: [upd] is
    applied in place to every sentence of the knowledge list, the other
    objects are left alone, and the sentences left without cells are
    dropped from the list, the others keeping their order. *)
Record marked_by (upd : Sentence → Sentence) (st st' : AI) : Prop := {
  marked_length : length (heap st') = length (heap st);
  marked_in : ∀ l s, l ∈ knowledge st → heap st !! l = Some s →
                heap st' !! l = Some (upd s);
  marked_out : ∀ l, l ∉ knowledge st → heap st' !! l = heap st !! l;
  marked_knowledge :
    knowledge st' = filter (λ l, emptyb (heap st') l = false) (knowledge st);
}.

(** No object is created, no sentence joins the knowledge list and no
    sentence gains a cell. *)
Record shrinks (st st' : AI) : Prop := {
  shrinks_length : length (heap st') = length (heap st);
  shrinks_knowledge : knowledge st' ⊆ knowledge st;
  shrinks_cells : ∀ l s, heap st !! l = Some s →
                    ∃ s', heap st' !! l = Some s' ∧ cells s' ⊆ cells s;
}.

(** A reference of a snapshot is still in the knowledge list, or its object
    has no cells left. *)
Definition live_or_empty (st : AI) (l : loc) : Prop :=
  l ∈ knowledge st ∨ emptyb (heap st) l = true.

(** ** Deduction steps

    The deductions of the engine are sequences of two kinds of steps: a
    cell of a resolved sentence is marked, or a sentence is reduced by a
    sentence whose cells it contains. *)

Inductive mark_step (st : AI) : AI → Prop :=
  | step_mine l s c st' :
      wf st → l ∈ knowledge st → heap st !! l = Some s →
      len (cells s) = count s → c ∈ cells s →
      mark_mine c st = Ok st' → mark_step st st'
  | step_safe l s c st' :
      wf st → l ∈ knowledge st → heap st !! l = Some s →
      count s = 0 → c ∈ cells s →
      mark_safe c st = Ok st' → mark_step st st'.

Inductive resolve_step (st : AI) : AI → Prop :=
  | step_resolve l1 l2 s1 s2 :
      wf st → l1 ∈ knowledge st → l2 ∈ knowledge st →
      heap st !! l1 = Some s1 → heap st !! l2 = Some s2 →
      s1 ≠ s2 → cells s1 ≠ ∅ → cells s2 ≠ ∅ → cells s1 ⊆ cells s2 →
      resolve_step st
        (store l2 (mkSentence (cells s2 ∖ cells s1) (count s2 - count s1)) st).

Definition engine_step (st st' : AI) : Prop :=
  resolve_step st st' ∨ mark_step st st'.

(** What a marking step keeps. *)
Record mark_kept (st st' : AI) : Prop := {
  kept_wf : wf st';
  kept_length : length (heap st') = length (heap st);
  kept_live : ∀ l, live_or_empty st l → live_or_empty st' l;
}.

(** The state of the double loop of [draw_interferences]: the flag
    [drawn] tells whether a resolution step was made. *)
Definition scanned (st : AI) (acc : AI * bool) : Prop :=
  if acc.2 then tc resolve_step st acc.1 else acc.1 = st.

(** The board, the moves made and the facts already known are kept. *)
Record frame (st st' : AI) : Prop := {
  frame_height : height st' = height st;
  frame_width : width st' = width st;
  frame_moves : moves_made st' = moves_made st;
  frame_mines : mines st ⊆ mines st';
  frame_safes : safes st ⊆ safes st';
}.

(** ** Facts given from outside

    [add_knowledge] marks the revealed cell, and the cells of its new
    sentence when that sentence is resolved, before the deductions start:
    mines among the cells [P], safe cells among the cells [Q]. *)

Inductive told_step (P Q : cell → Prop) (st : AI) : AI → Prop :=
  | told_mine c st' :
      wf st → P c → mark_mine c st = Ok st' → told_step P Q st st'
  | told_safe c st' :
      wf st → Q c → mark_safe c st = Ok st' → told_step P Q st st'.

(** The state after [Sentence(cells, count)] was appended to the knowledge
    list. *)
Definition appended (s : Sentence) (st : AI) : AI :=
  set_knowledge (λ k, k ++ [length (heap st)]) (set_heap (λ h, h ++ [s]) st).

(** The cells that [add_knowledge] marks on account of its new sentence. *)
Definition told_mines (s : Sentence) (c : cell) : Prop :=
  c ∈ cells s ∧ count s ≠ 0 ∧ len (cells s) = count s.
Definition told_safes (c0 : cell) (s : Sentence) (c : cell) : Prop :=
  c = c0 ∨ (c ∈ cells s ∧ count s = 0).

(** The set that the test [neighbor not in (moves_made or mines or safes)]
    looks into. *)
Definition excluded (st : AI) : gset cell :=
  py_or (py_or (moves_made st) (mines st)) (safes st).

(** ** Soundness with respect to a placement of the mines *)

(** The sentence is a true statement about the placement [M]. *)
Definition true_of (M : gset cell) (s : Sentence) : Prop :=
  count s = len (cells s ∩ M).

(** The knowledge of the engine is true of the placement [M]: the
    sentences hold, the known mines are mines, the known safe cells are
    not, and no move was made that is not known to be safe. *)
Record sound (M : gset cell) (st : AI) : Prop := {
  sound_heap : ∀ s, s ∈ heap st → true_of M s;
  sound_mines : mines st ⊆ M;
  sound_safes : safes st ## M;
  sound_moves : moves_made st ⊆ safes st;
}.

(** An observation [(c, n)] agrees with the placement [M]: the revealed
    cell is not a mine and [n] of its neighbours are. *)
Definition consistent (M : gset cell) (h w : Z) (c : cell) (n : Z) : Prop :=
  (c ∉ M) ∧ n = len (neighbors h w c ∩ M).

(** ** Runs of the engine *)

(** The states that the public operations reach from a new engine,
    whatever their arguments. *)
Inductive reachable : AI → Prop :=
  | reach_init h w : reachable (init h w)
  | reach_add c n st st' :
      reachable st → add_knowledge c n st = Ok st' → reachable st'
  | reach_mine c st st' :
      reachable st → mark_mine c st = Ok st' → reachable st'
  | reach_safe c st st' :
      reachable st → mark_safe c st = Ok st' → reachable st'
  | reach_safe_move pick st :
      reachable st → reachable (make_safe_move pick st).2
  | reach_random_move rnd st :
      reachable st → reachable (make_random_move rnd st).2.

(** The states reached when every argument agrees with the placement [M]
    of the mines. *)
Inductive agrees (M : gset cell) : AI → Prop :=
  | agrees_init h w : agrees M (init h w)
  | agrees_add c n st st' :
      agrees M st → consistent M (height st) (width st) c n →
      add_knowledge c n st = Ok st' → agrees M st'
  | agrees_mine c st st' :
      agrees M st → c ∈ M → mark_mine c st = Ok st' → agrees M st'
  | agrees_safe c st st' :
      agrees M st → c ∉ M → mark_safe c st = Ok st' → agrees M st'
  | agrees_safe_move pick st :
      agrees M st → agrees M (make_safe_move pick st).2
  | agrees_random_move rnd st :
      agrees M st → agrees M (make_random_move rnd st).2.

(** ** Scenarios *)

(** Scenario 2: the knowledge base holds the single sentence
    [{(0,0),(0,1)} = 1]. *)
Definition scenario2 : AI :=
  mkAI 1 2 ∅ ∅ ∅ [mkSentence {[(0,0); (0,1)]} 1] [0%nat].

(** The state that the scenario expects: the sentence has become
    [{(0,1)} = 0] and [(0,1)] is known to be safe. *)
Definition scenario2_expected (st : AI) : Prop :=
  (∃ l, l ∈ knowledge st ∧ heap st !! l = Some (mkSentence {[(0,1)]} 0))
  ∧ (0,1) ∈ safes st.

(** Scenario 3: [A = {(0,0)} = 1] and [B = {(0,0),(0,1),(0,2)} = 2]. *)
Definition scenario3 : AI :=
  mkAI 1 3 ∅ ∅ ∅
    [mkSentence {[(0,0)]} 1; mkSentence {[(0,0); (0,1); (0,2)]} 2]
    [0%nat; 1%nat].

(** A 1x3 board with a mine at [(0,1)], after [(0,0)] was revealed. *)
Definition mine_in_the_middle : AI :=
  mkAI 1 3 {[(0,0)]} {[(0,1)]} {[(0,0)]} [mkSentence ∅ 0] [].

(** A 3x3 board without mines, after [(1,1)] was revealed. *)
Definition all_safe : AI :=
  mkAI 3 3 {[(1,1)]} ∅
    (list_to_set [(0,0); (0,1); (0,2); (1,0); (1,1); (1,2); (2,0); (2,1); (2,2)])
    [mkSentence ∅ 0] [].

(** A 1x3 board with a mine at [(0,0)], after [(0,1)] was revealed. *)
Definition mine_at_the_left : AI :=
  mkAI 1 3 {[(0,1)]} ∅ {[(0,1)]} [mkSentence {[(0,0); (0,2)]} 1] [0%nat].

(** ** The board *)

(** The cell is on the board. *)
Definition in_grid (st : AI) (c : cell) : Prop :=
  0 ≤ c.1 < height st ∧ 0 ≤ c.2 < width st.

(** The cells of the sentences are on the board, and so are the safe
    cells that were not moved on. *)
Record on_board (st : AI) : Prop := {
  board_heap : ∀ s x, s ∈ heap st → x ∈ cells s → in_grid st x;
  board_safes : ∀ x, x ∈ safes st → in_grid st x ∨ x ∈ moves_made st;
}.

(** The states that observations and move selections reach from a new
    engine. *)
Inductive observed : AI → Prop :=
  | observed_init h w : observed (init h w)
  | observed_add c n st st' :
      observed st → add_knowledge c n st = Ok st' → observed st'
  | observed_safe_move pick st :
      observed st → observed (make_safe_move pick st).2
  | observed_random_move rnd st :
      observed st → observed (make_random_move rnd st).2.

(** A 1x1 board whose only cell was revealed. *)
Definition all_moved : AI :=
  mkAI 1 1 {[(0,0)]} ∅ {[(0,0)]} [mkSentence ∅ 0] [0%nat].

(** ** The game *)

(** The field on which the cells of [M] hold a mine. *)
Definition board_of (h w : Z) (M : gset cell) : list (list bool) :=
  (λ i, (λ j, bool_decide ((i, j) ∈ M)) <$> seqZ 0 w) <$> seqZ 0 h.

(** The field of the game shows its mines, which are cells of the
    board. *)
Record coherent (g : Minesweeper.Game) : Prop := {
  coherent_board :
    Minesweeper.board g
    = board_of (Minesweeper.height g) (Minesweeper.width g) (Minesweeper.mines g);
  coherent_mines : ∀ c, c ∈ Minesweeper.mines g →
    0 ≤ c.1 < Minesweeper.height g ∧ 0 ≤ c.2 < Minesweeper.width g;
}.

(** The cells that the random numbers select. *)
Definition drawn (h w : Z) (draws : list (nat * nat)) : gset cell :=
  list_to_set ((λ r, (Z.of_nat r.1 `mod` h, Z.of_nat r.2 `mod` w)) <$> draws).

(** The states of an engine that plays the game [g]: a cell is revealed
    when the game says that it holds no mine, and the engine is given the
    number of nearby mines that the game computes. *)
Inductive played (g : Minesweeper.Game) : AI → Prop :=
  | played_init :
      played g (init (Minesweeper.height g) (Minesweeper.width g))
  | played_reveal c n st st' :
      played g st →
      Minesweeper.is_mine g c = Minesweeper.Return false →
      Minesweeper.nearby_mines g c = Minesweeper.Return n →
      add_knowledge c n st = Ok st' → played g st'
  | played_safe_move pick st :
      played g st → played g (make_safe_move pick st).2
  | played_random_move rnd st :
      played g st → played g (make_random_move rnd st).2.

(** What the loop of the constructor has done when it ends, and why it
    raises when it does: [M] holds the mines at the start, [r] is the
    result. *)
Definition place_post (h w n : Z) (draws : list (nat * nat)) (M : gset cell)
    (r : Minesweeper.result (gset cell * list (list bool))) : Prop :=
  match r with
  | Minesweeper.Return (M', b') =>
      b' = board_of h w M'
      ∧ (∀ c, c ∈ M' → 0 ≤ c.1 < h ∧ 0 ≤ c.2 < w)
      ∧ len M' = n ∧ M ⊆ M' ∧ M' ⊆ M ∪ drawn h w draws
  | Minesweeper.Throw Minesweeper.IndexError => False
  | Minesweeper.Throw Minesweeper.ValueError => len M ≠ n ∧ (h ≤ 0 ∨ w ≤ 0)
  | Minesweeper.Throw Minesweeper.NoMoreDraws =>
      len M ≠ n ∧ (0 < h → 0 < w → ¬ (len M ≤ n ≤ len (M ∪ drawn h w draws)))
  end.

(** A 1x3 game with a mine at [(0,0)]. *)
Definition left_mine_game : Minesweeper.Game :=
  Minesweeper.mkGame 1 3 {[(0,0)]} [[true; false; false]] ∅.

(** * Properties *)

(** ** Outcomes *)

Lemma bind_Ok {A B} (m : outcome A) (f : A → outcome B) b :
  m ≫= f = Ok b ↔ ∃ a, m = Ok a ∧ f a = Ok b.
Proof.
  destruct m as [a|e]; simpl; split.
  - intros H. by exists a.
  - by intros (a' & [= ->] & H).
  - done.
  - by intros (a' & [=] & _).
Qed.

(** A loop whose body keeps an invariant and never fails ends in a state
    that satisfies the invariant. *)
Lemma for_each_inv {A S} (I : S → Prop) (body : A → S → outcome S) l s :
  I s →
  (∀ x s, x ∈ l → I s → ∃ s', body x s = Ok s' ∧ I s') →
  ∃ s', for_each body l s = Ok s' ∧ I s'.
Proof.
  revert s. induction l as [|x l IH]; intros s Hs Hbody; simpl.
  - by exists s.
  - destruct (Hbody x s) as (s1 & -> & Hs1); [left | done |].
    simpl. apply IH; [done |].
    intros y s2 Hy. apply Hbody. by right.
Qed.

Lemma for_each_cons {A S} (body : A → S → outcome S) x l s :
  for_each body (x :: l) s = body x s ≫= for_each body l.
Proof. done. Qed.

Lemma for_each_app {A S} (body : A → S → outcome S) l1 l2 s :
  for_each body (l1 ++ l2) s = for_each body l1 s ≫= for_each body l2.
Proof.
  revert s. induction l1 as [|x l1 IH]; intros s; [done |].
  simpl. destruct (body x s); simpl; [apply IH | done].
Qed.

(** ** Sums over the knowledge list *)

Lemma sum_filter_le (f g : loc → nat) (P : loc → Prop) `{∀ l, Decision (P l)} k :
  (∀ l, l ∈ k → f l ≤ g l)%nat →
  (sum_list_with f (filter P k) ≤ sum_list_with g k)%nat.
Proof.
  induction k as [|x k IH]; intros Hle; [done|].
  rewrite filter_cons. pose proof (Hle x ltac:(left)).
  assert (sum_list_with f (filter P k) ≤ sum_list_with g k)%nat
    by (apply IH; intros l Hl; apply Hle; by right).
  case_decide; cbn [sum_list_with]; lia.
Qed.

Lemma sum_filter_lt (f g : loc → nat) (P : loc → Prop) `{∀ l, Decision (P l)} k x :
  (∀ l, l ∈ k → f l ≤ g l)%nat →
  x ∈ k → (f x < g x)%nat →
  (sum_list_with f (filter P k) < sum_list_with g k)%nat.
Proof.
  induction k as [|y k IH]; intros Hle Hx Hlt; [by apply elem_of_nil in Hx|].
  rewrite filter_cons. pose proof (Hle y ltac:(left)).
  assert (Hk : ∀ l, l ∈ k → (f l ≤ g l)%nat) by (intros l Hl; apply Hle; by right).
  pose proof (sum_filter_le f g P k Hk).
  apply elem_of_cons in Hx as [->|Hx].
  - case_decide; cbn [sum_list_with]; lia.
  - specialize (IH Hk Hx Hlt). case_decide; cbn [sum_list_with]; lia.
Qed.

Lemma sum_list_with_lt (f g : loc → nat) k x :
  (∀ l, l ∈ k → f l ≤ g l)%nat →
  x ∈ k → (f x < g x)%nat →
  (sum_list_with f k < sum_list_with g k)%nat.
Proof.
  intros Hle Hx Hlt.
  pose proof (sum_filter_lt f g (λ _, True) k x Hle Hx Hlt) as H.
  replace (filter (λ _, True) k) with k in H; [done|].
  clear. induction k as [|y k IH]; [done|].
  by rewrite filter_cons_True, <- IH.
Qed.

(** ** Sentences *)

Lemma len_0 (X : gset cell) : len X = 0 ↔ X = ∅.
Proof.
  unfold len. split.
  - intros H. apply leibniz_equiv, size_empty_iff. lia.
  - intros ->. by rewrite size_empty.
Qed.

Lemma len_add (X : gset cell) x : x ∉ X → len ({[x]} ∪ X) = 1 + len X.
Proof.
  intros Hx. unfold len. rewrite size_union by set_solver.
  rewrite size_singleton. lia.
Qed.

Lemma Sentence_eq_spec a b : Sentence.eq a b = true ↔ a = b.
Proof.
  unfold Sentence.eq. rewrite andb_true_iff, !bool_decide_eq_true.
  destruct a, b; simpl. split; [intros [-> ->] | intros [= -> ->]]; done.
Qed.

Lemma mark_mine_idemp c s :
  Sentence.mark_mine c (Sentence.mark_mine c s) = Sentence.mark_mine c s.
Proof.
  unfold Sentence.mark_mine. destruct (bool_decide (c ∈ cells s)) eqn:E; simpl.
  - rewrite bool_decide_eq_false_2; [done | set_solver].
  - by rewrite E.
Qed.

Lemma mark_safe_idemp c s :
  Sentence.mark_safe c (Sentence.mark_safe c s) = Sentence.mark_safe c s.
Proof.
  unfold Sentence.mark_safe. destruct (bool_decide (c ∈ cells s)) eqn:E; simpl.
  - rewrite bool_decide_eq_false_2; [done | set_solver].
  - by rewrite E.
Qed.

(** ** The object store *)

Lemma deref_lookup l st s : heap st !! l = Some s → deref l st = Ok s.
Proof. unfold deref. by intros ->. Qed.

Lemma deref_store l s st :
  (l < length (heap st))%nat → deref l (store l s st) = Ok s.
Proof.
  intros Hl. unfold deref, store. simpl. by rewrite list_lookup_insert_eq.
Qed.

Lemma heap_map_lookup upd k h l :
  heap_map upd k h !! l = (λ s, if bool_decide (l ∈ k) then upd s else s) <$> h !! l.
Proof. unfold heap_map. by rewrite list_lookup_imap. Qed.

Lemma heap_map_length upd k h : length (heap_map upd k h) = length h.
Proof. unfold heap_map. by rewrite length_imap. Qed.

Lemma heap_map_cons upd k h l s :
  (∀ s, upd (upd s) = upd s) →
  h !! l = Some s →
  heap_map upd k (<[l := upd s]> h) = heap_map upd (l :: k) h.
Proof.
  intros Hid Hl. apply list_eq. intros i. rewrite !heap_map_lookup.
  destruct (decide (i = l)) as [->|Hne].
  - rewrite list_lookup_insert_eq by (by eapply lookup_lt_Some).
    rewrite Hl. simpl. rewrite (bool_decide_eq_true_2 (l ∈ l :: k)) by left.
    case_bool_decide; by rewrite ?Hid.
  - rewrite list_lookup_insert_ne by done.
    destruct (h !! i) as [si|]; [simpl | done].
    f_equal. apply (f_equal (λ b : bool, if b then upd si else si)).
    apply bool_decide_ext. set_solver.
Qed.

Section update_all.
Context (upd : Sentence → Sentence).
Hypothesis upd_idemp : ∀ s, upd (upd s) = upd s.

Local Abbreviation collect := (λ (sentence : loc) '(st, empty),
      s ← deref sentence st;
      let st := store sentence (upd s) st in
      s ← deref sentence st;
      if bool_decide (len (cells s) = 0)
      then Ok (st, empty ++ [sentence])
      else Ok (st, empty)).

Lemma collect_step l st s (empty : list loc) :
  heap st !! l = Some s →
  collect l (st, empty)
  = Ok (store l (upd s) st,
        if bool_decide (len (cells (upd s)) = 0) then empty ++ [l] else empty).
Proof.
  intros Hs. cbv beta iota zeta.
  rewrite (deref_lookup _ _ _ Hs). cbn [mbind outcome_bind].
  rewrite deref_store by (by eapply lookup_lt_Some).
  cbn [mbind outcome_bind]. by case_bool_decide.
Qed.

Lemma collect_loop_spec k st empty :
  (∀ l, l ∈ k → (l < length (heap st))%nat) →
  for_each collect k (st, empty)
  = Ok (set_heap (heap_map upd k) st,
        empty ++ filter (λ l, emptyb (heap_map upd k (heap st)) l = true) k).
Proof.
  revert st empty. induction k as [|l k IH]; intros st empty Hk.
  - simpl. rewrite app_nil_r. f_equal. f_equal.
    destruct st; unfold set_heap, heap_map; simpl. f_equal.
    apply list_eq. intros i. rewrite list_lookup_imap.
    by destruct (_ !! i).
  - destruct (lookup_lt_is_Some_2 (heap st) l) as [s Hs]; [apply Hk; left |].
    rewrite for_each_cons, (collect_step _ _ _ _ Hs). cbn [mbind outcome_bind].
    assert (Hh : heap_map upd k (<[l:=upd s]> (heap st)) = heap_map upd (l :: k) (heap st))
      by by apply heap_map_cons.
    assert (He : emptyb (heap_map upd (l :: k) (heap st)) l
                 = bool_decide (len (cells (upd s)) = 0)).
    { unfold emptyb. rewrite heap_map_lookup, Hs. simpl.
      rewrite (bool_decide_eq_true_2 (l ∈ l :: k)) by left.
      apply bool_decide_ext. by rewrite len_0. }
    rewrite IH.
    2:{ unfold store. cbn [set_heap heap]. intros l' Hl'.
        rewrite length_insert. apply Hk. by right. }
    unfold store, set_heap. cbn [heap height width moves_made mines safes knowledge].
    rewrite Hh, filter_cons, He. f_equal. f_equal.
    destruct (bool_decide (len (cells (upd s)) = 0)).
    + rewrite decide_True by done. by rewrite <- app_assoc.
    + by rewrite decide_False by done.
Qed.

(** Removing an object without cells skips the objects that have cells. *)
Lemma list_remove_skip st pre x k :
  emptyb (heap st) x = true →
  (∀ l, l ∈ pre → emptyb (heap st) l = false) →
  (∀ l, l ∈ pre → (l < length (heap st))%nat) →
  list_remove st x (pre ++ x :: k) = Ok (pre ++ k).
Proof.
  intros Hx Hne Hlt.
  assert (∃ sx, heap st !! x = Some sx ∧ cells sx = ∅) as (sx & Hsx & Hcx).
  { unfold emptyb in Hx. destruct (heap st !! x) as [sx|]; [|done].
    exists sx. split; [done|]. by apply bool_decide_eq_true in Hx. }
  induction pre as [|l pre IH]; cbn [list_remove app].
  - unfold deref. rewrite Hsx. cbn [mbind outcome_bind].
    by rewrite bool_decide_eq_true_2.
  - destruct (lookup_lt_is_Some_2 (heap st) l) as [s Hs]; [apply Hlt; left|].
    unfold deref. rewrite Hs, Hsx. cbn [mbind outcome_bind].
    assert (Hl : emptyb (heap st) l = false) by (apply Hne; left).
    unfold emptyb in Hl. rewrite Hs in Hl. apply bool_decide_eq_false in Hl.
    rewrite bool_decide_eq_false_2 by (intros ->; congruence).
    assert (Sentence.eq s sx = false) as ->.
    { apply not_true_iff_false. rewrite Sentence_eq_spec. intros ->. done. }
    cbn [orb]. rewrite IH; [done | |]; intros l' Hl'; [apply Hne | apply Hlt]; by right.
Qed.

Lemma remove_loop_spec st pre k :
  (∀ l, l ∈ pre → emptyb (heap st) l = false) →
  (∀ l, l ∈ pre ++ k → (l < length (heap st))%nat) →
  for_each (λ sentence st,
      k ← list_remove st sentence (knowledge st);
      Ok (set_knowledge (λ _, k) st))
    (filter (λ l, emptyb (heap st) l = true) k)
    (set_knowledge (λ _, pre ++ k) st)
  = Ok (set_knowledge (λ _, pre ++ filter (λ l, emptyb (heap st) l = false) k) st).
Proof.
  revert pre. induction k as [|l k IH]; intros pre Hpre Hlt.
  - done.
  - rewrite !filter_cons. destruct (emptyb (heap st) l) eqn:El.
    + rewrite decide_True by done. rewrite decide_False by done.
      cbn [for_each set_knowledge knowledge].
      rewrite (list_remove_skip (set_knowledge _ st)); [| done | done |].
      2:{ intros l' Hl'. apply Hlt. set_solver. }
      cbn [mbind outcome_bind].
      specialize (IH pre Hpre). unfold set_knowledge in *. simpl in *.
      apply IH. intros l' Hl'. apply Hlt. set_solver.
    + rewrite decide_False by done. rewrite decide_True by done.
      specialize (IH (pre ++ [l])). rewrite <- !app_assoc in IH. simpl in IH.
      apply IH.
      * intros l' [Hl'| ->%list_elem_of_singleton]%elem_of_app; auto.
      * done.
Qed.

Lemma update_all_spec st : wf st → update_all upd st = Ok (updated upd st).
Proof.
  intros Hwf. unfold update_all.
  rewrite collect_loop_spec by done. cbn [mbind outcome_bind app].
  pose proof (remove_loop_spec (set_heap (heap_map upd (knowledge st)) st) [] (knowledge st)) as H.
  cbn [app set_heap heap] in H.
  assert (set_knowledge (λ _, knowledge st) (set_heap (heap_map upd (knowledge st)) st)
          = set_heap (heap_map upd (knowledge st)) st) as Heq by by destruct st.
  rewrite Heq in H. rewrite H; [done | set_solver |].
  intros l Hl. rewrite heap_map_length. by apply Hwf.
Qed.

End update_all.

(** [mark_mine] and [mark_safe] never raise on a well-formed state, and
    their result is given by [updated]. *)
Lemma mark_mine_spec c st :
  wf st →
  mark_mine c st
  = Ok (updated (Sentence.mark_mine c) (set_mines (λ m, {[c]} ∪ m) st)).
Proof.
  intros Hwf. unfold mark_mine.
  apply update_all_spec; [apply mark_mine_idemp | done].
Qed.

Lemma mark_safe_spec c st :
  wf st →
  mark_safe c st
  = Ok (updated (Sentence.mark_safe c) (set_safes (λ m, {[c]} ∪ m) st)).
Proof.
  intros Hwf. unfold mark_safe.
  apply update_all_spec; [apply mark_safe_idemp | done].
Qed.

Lemma emptyb_true h l :
  emptyb h l = true ↔ ∃ s, h !! l = Some s ∧ cells s = ∅.
Proof.
  unfold emptyb. destruct (h !! l) as [s|].
  - rewrite bool_decide_eq_true. naive_solver.
  - naive_solver.
Qed.

Lemma emptyb_false h l s :
  h !! l = Some s → emptyb h l = false ↔ cells s ≠ ∅.
Proof.
  intros Hl. unfold emptyb. rewrite Hl. by rewrite bool_decide_eq_false.
Qed.

Section updated.
Context (upd : Sentence → Sentence).
Hypothesis upd_shrinks : ∀ s, cells (upd s) ⊆ cells s.

Lemma updated_wf st : wf st → wf (updated upd st).
Proof.
  intros Hwf l. unfold updated. cbn [knowledge heap].
  rewrite list_elem_of_filter, heap_map_length. intros [_ Hl]. by apply Hwf.
Qed.

Lemma updated_length st : length (heap (updated upd st)) = length (heap st).
Proof. unfold updated. cbn [heap]. apply heap_map_length. Qed.

Lemma updated_lookup_in st l s :
  l ∈ knowledge st → heap st !! l = Some s →
  heap (updated upd st) !! l = Some (upd s).
Proof.
  intros Hl Hs. unfold updated. cbn [heap].
  rewrite heap_map_lookup, Hs. simpl. by rewrite bool_decide_eq_true_2.
Qed.

Lemma updated_lookup st l s :
  heap st !! l = Some s →
  heap (updated upd st) !! l = Some s ∨ heap (updated upd st) !! l = Some (upd s).
Proof.
  intros Hs. unfold updated. cbn [heap].
  rewrite heap_map_lookup, Hs. simpl. case_bool_decide; auto.
Qed.

Lemma updated_lookup_inv st l s' :
  heap (updated upd st) !! l = Some s' →
  ∃ s, heap st !! l = Some s ∧ (s' = s ∨ s' = upd s).
Proof.
  unfold updated. cbn [heap]. rewrite heap_map_lookup.
  destruct (heap st !! l) as [s|]; [|done]. simpl. intros [= <-].
  exists s. split; [done|]. case_bool_decide; auto.
Qed.

Lemma updated_knowledge st l :
  l ∈ knowledge (updated upd st)
  ↔ l ∈ knowledge st ∧ emptyb (heap (updated upd st)) l = false.
Proof. unfold updated. cbn [knowledge heap]. rewrite list_elem_of_filter. tauto. Qed.

(** After the update no sentence of the knowledge list is without cells. *)
Lemma updated_nonempty st l s :
  l ∈ knowledge (updated upd st) → heap (updated upd st) !! l = Some s →
  cells s ≠ ∅.
Proof.
  rewrite updated_knowledge. intros [_ He] Hs. by rewrite (emptyb_false _ _ _ Hs) in He.
Qed.

Lemma updated_live_or_empty st l :
  wf st → live_or_empty st l → live_or_empty (updated upd st) l.
Proof.
  intros Hwf [Hl|He].
  - destruct (emptyb (heap (updated upd st)) l) eqn:E; [by right | left].
    by apply updated_knowledge.
  - right. apply emptyb_true in He as (s & Hs & Hc). apply emptyb_true.
    destruct (updated_lookup st l s Hs) as [H|H]; eexists; (split; [exact H|]);
      [done|]. pose proof (upd_shrinks s). set_solver.
Qed.

Lemma updated_size_le st l :
  (from_option (λ s, size (cells s)) 0 (heap (updated upd st) !! l)
   ≤ from_option (λ s, size (cells s)) 0 (heap st !! l))%nat.
Proof.
  unfold updated. cbn [heap]. rewrite heap_map_lookup.
  destruct (heap st !! l) as [s|]; [simpl | done].
  case_bool_decide; [|done]. apply subseteq_size, upd_shrinks.
Qed.

Lemma updated_kb_size st : (kb_size (updated upd st) ≤ kb_size st)%nat.
Proof.
  unfold kb_size. apply sum_filter_le. intros l _. apply updated_size_le.
Qed.

Lemma updated_kb_size_lt st l s :
  l ∈ knowledge st → heap st !! l = Some s →
  (size (cells (upd s)) < size (cells s))%nat →
  (kb_size (updated upd st) < kb_size st)%nat.
Proof.
  intros Hl Hs Hlt. unfold kb_size.
  apply sum_filter_lt with l; [intros l' _; apply updated_size_le | done |].
  by rewrite (updated_lookup_in st l s), Hs.
Qed.

End updated.

Lemma mark_mine_shrinks c s : cells (Sentence.mark_mine c s) ⊆ cells s.
Proof. unfold Sentence.mark_mine. case_bool_decide; set_solver. Qed.

Lemma mark_safe_shrinks c s : cells (Sentence.mark_safe c s) ⊆ cells s.
Proof. unfold Sentence.mark_safe. case_bool_decide; set_solver. Qed.

Lemma size_remove (X : gset cell) c : c ∈ X → size X = S (size (X ∖ {[c]})).
Proof.
  intros Hc. rewrite size_difference by set_solver. rewrite size_singleton.
  assert (size X ≠ 0)%nat; [|lia].
  apply size_non_empty_iff. set_solver.
Qed.

(** ** Loops over sets

    The source iterates over Python sets, in an order that Python does not
    fix; the embedding follows [elements].  The loops that mark the cells
    of a set give the same state in every order: it depends on the set of
    cells only. *)

Lemma heap_map_ext f g k h :
  (∀ s, f s = g s) → heap_map f k h = heap_map g k h.
Proof.
  intros Hfg. apply list_eq. intros l. rewrite !heap_map_lookup.
  destruct (h !! l) as [s|]; [simpl | done]. by rewrite Hfg.
Qed.

Lemma updated_ext f g st : (∀ s, f s = g s) → updated f st = updated g st.
Proof. intros Hfg. unfold updated. by rewrite (heap_map_ext f g). Qed.

(** Two updates in a row are one update, when the second leaves a
    sentence without cells as it is. *)
Lemma updated_compose f1 f2 st :
  (∀ s, cells s = ∅ → f2 s = s) →
  updated f2 (updated f1 st) = updated (λ s, f2 (f1 s)) st.
Proof.
  intros Hf2. unfold updated. cbn [height width moves_made mines safes heap knowledge].
  set (h1 := heap_map f1 (knowledge st) (heap st)).
  set (k1 := filter (λ l, emptyb h1 l = false) (knowledge st)).
  assert (heap_map f2 k1 h1 = heap_map (λ s, f2 (f1 s)) (knowledge st) (heap st)) as Hh.
  { apply list_eq. intros l. unfold h1. rewrite !heap_map_lookup.
    destruct (heap st !! l) as [s|] eqn:Hs; [simpl | done]. f_equal.
    destruct (decide (l ∈ knowledge st)) as [Hl|Hl].
    - rewrite (bool_decide_eq_true_2 (l ∈ knowledge st)) by done.
      case_bool_decide as Hk1; [done|].
      symmetry. apply Hf2.
      destruct (emptyb h1 l) eqn:E.
      + apply emptyb_true in E as (s1 & Hs1 & He). unfold h1 in Hs1.
        rewrite heap_map_lookup, Hs in Hs1. simpl in Hs1.
        rewrite bool_decide_eq_true_2 in Hs1 by done. by injection Hs1 as <-.
      + exfalso. apply Hk1. unfold k1. by apply list_elem_of_filter.
    - rewrite (bool_decide_eq_false_2 (l ∈ knowledge st)) by done.
      rewrite bool_decide_eq_false_2; [done|].
      unfold k1. rewrite list_elem_of_filter. tauto. }
  rewrite Hh. f_equal. unfold k1.
  rewrite list_filter_filter. apply list_filter_iff. intros l. split; [tauto|].
  intros He2. split; [done|].
  destruct (emptyb h1 l) eqn:E; [|done].
  rewrite <- Hh in He2.
  apply emptyb_true in E as (s1 & Hs1 & He).
  unfold emptyb in He2. rewrite heap_map_lookup, Hs1 in He2. simpl in He2.
  rewrite (Hf2 s1 He) in He2. apply bool_decide_eq_false in He2.
  by destruct (bool_decide (l ∈ k1)).
Qed.

Lemma without_mines_empty X s : cells s = ∅ → without_mines X s = s.
Proof.
  intros He. unfold without_mines. destruct s as [cs n]. simpl in *. subst cs.
  f_equal; [set_solver|].
  replace (∅ ∩ X) with (∅ : gset cell) by set_solver.
  assert (len ∅ = 0) as -> by by apply len_0. lia.
Qed.

Lemma without_safes_empty X s : cells s = ∅ → without_safes X s = s.
Proof.
  intros He. unfold without_safes. destruct s as [cs n]. simpl in *. subst cs.
  f_equal. set_solver.
Qed.

Lemma without_mines_step c X s :
  c ∉ X →
  without_mines X (Sentence.mark_mine c s) = without_mines ({[c]} ∪ X) s.
Proof.
  intros Hc. unfold without_mines, Sentence.mark_mine.
  case_bool_decide as Hin; cbn [cells count].
  - f_equal; [set_solver|].
    replace (cells s ∩ ({[c]} ∪ X)) with ({[c]} ∪ (cells s ∖ {[c]} ∩ X)) by set_solver.
    rewrite len_add by set_solver. lia.
  - f_equal; [set_solver|]. do 2 f_equal. set_solver.
Qed.

Lemma without_safes_step c X s :
  without_safes X (Sentence.mark_safe c s) = without_safes ({[c]} ∪ X) s.
Proof.
  unfold without_safes, Sentence.mark_safe.
  case_bool_decide as Hin; cbn [cells count]; f_equal; set_solver.
Qed.

Lemma without_mines_none s : without_mines ∅ s = s.
Proof.
  unfold without_mines. destruct s as [cs n]. simpl. f_equal; [set_solver|].
  replace (cs ∩ ∅) with (∅ : gset cell) by set_solver.
  assert (len ∅ = 0) as -> by by apply len_0. lia.
Qed.

Lemma without_safes_none s : without_safes ∅ s = s.
Proof. unfold without_safes. destruct s as [cs n]. simpl. f_equal. set_solver. Qed.

(** The loop [for cell in cells: self.mark_mine(cell)] over a set with at
    least one cell. *)
Lemma mark_mines_closed cs : ∀ c st,
  wf st → NoDup (c :: cs) →
  for_each mark_mine (c :: cs) st
  = Ok (updated (without_mines (list_to_set (c :: cs)))
          (set_mines (λ m, list_to_set (c :: cs) ∪ m) st)).
Proof.
  induction cs as [|c' cs IH]; intros c st Hwf [Hc Hnd]%NoDup_cons.
  - rewrite for_each_cons, mark_mine_spec by done. cbn [for_each mbind outcome_bind].
    replace (list_to_set [c]) with ({[c]} : gset cell) by set_solver.
    f_equal. apply updated_ext. intros s.
    by rewrite <- (without_mines_none (Sentence.mark_mine c s)),
      without_mines_step, union_empty_r_L by set_solver.
  - rewrite for_each_cons, mark_mine_spec by done. cbn [mbind outcome_bind].
    rewrite IH; [| by apply updated_wf | done]. f_equal.
    set (X := list_to_set (c' :: cs)).
    change (set_mines (λ m, X ∪ m)
              (updated (Sentence.mark_mine c) (set_mines (λ m, {[c]} ∪ m) st)))
      with (updated (Sentence.mark_mine c)
              (set_mines (λ m, X ∪ ({[c]} ∪ m)) st)).
    rewrite updated_compose by apply without_mines_empty.
    replace (set_mines (λ m, X ∪ ({[c]} ∪ m)) st)
      with (set_mines (λ m, list_to_set (c :: c' :: cs) ∪ m) st).
    2:{ unfold set_mines. f_equal. cbn [list_to_set]. fold X. set_solver. }
    apply updated_ext. intros s. rewrite without_mines_step; [done|].
    unfold X. by rewrite elem_of_list_to_set.
Qed.

Lemma mark_safes_closed cs : ∀ c st,
  wf st →
  for_each mark_safe (c :: cs) st
  = Ok (updated (without_safes (list_to_set (c :: cs)))
          (set_safes (λ m, list_to_set (c :: cs) ∪ m) st)).
Proof.
  induction cs as [|c' cs IH]; intros c st Hwf.
  - rewrite for_each_cons, mark_safe_spec by done. cbn [for_each mbind outcome_bind].
    replace (list_to_set [c]) with ({[c]} : gset cell) by set_solver.
    f_equal. apply updated_ext. intros s.
    by rewrite <- (without_safes_none (Sentence.mark_safe c s)),
      without_safes_step, union_empty_r_L.
  - rewrite for_each_cons, mark_safe_spec by done. cbn [mbind outcome_bind].
    rewrite IH by by apply updated_wf. f_equal.
    set (X := list_to_set (c' :: cs)).
    change (set_safes (λ m, X ∪ m)
              (updated (Sentence.mark_safe c) (set_safes (λ m, {[c]} ∪ m) st)))
      with (updated (Sentence.mark_safe c)
              (set_safes (λ m, X ∪ ({[c]} ∪ m)) st)).
    rewrite updated_compose by apply without_safes_empty.
    replace (set_safes (λ m, X ∪ ({[c]} ∪ m)) st)
      with (set_safes (λ m, list_to_set (c :: c' :: cs) ∪ m) st).
    2:{ unfold set_safes. f_equal. cbn [list_to_set]. fold X. set_solver. }
    apply updated_ext. intros s. by rewrite without_safes_step.
Qed.

(** The order in which the cells of a set are marked does not matter. *)
Lemma mark_mines_any_order cs cs' st :
  wf st → NoDup cs → cs ≡ₚ cs' →
  for_each mark_mine cs st = for_each mark_mine cs' st.
Proof.
  intros Hwf Hnd Hperm.
  assert (NoDup cs') as Hnd' by by rewrite <- Hperm.
  destruct cs as [|c cs], cs' as [|c' cs'].
  - done.
  - by apply Permutation_nil_cons in Hperm.
  - symmetry in Hperm. by apply Permutation_nil_cons in Hperm.
  - rewrite !mark_mines_closed by done.
    by rewrite (list_to_set_perm_L (C:=gset cell) _ _ Hperm).
Qed.

Lemma mark_safes_any_order cs cs' st :
  wf st → cs ≡ₚ cs' →
  for_each mark_safe cs st = for_each mark_safe cs' st.
Proof.
  intros Hwf Hperm.
  destruct cs as [|c cs], cs' as [|c' cs'].
  - done.
  - by apply Permutation_nil_cons in Hperm.
  - symmetry in Hperm. by apply Permutation_nil_cons in Hperm.
  - rewrite !mark_safes_closed by done.
    by rewrite (list_to_set_perm_L (C:=gset cell) _ _ Hperm).
Qed.

(** ** Deduction steps *)

Lemma mark_kept_refl st : wf st → mark_kept st st.
Proof. by split. Qed.

Lemma mark_kept_trans st1 st2 st3 :
  mark_kept st1 st2 → mark_kept st2 st3 → mark_kept st1 st3.
Proof.
  intros [] []. split; [done | congruence | auto].
Qed.

Lemma mark_step_kept st st' : mark_step st st' → mark_kept st st'.
Proof.
  intros [l s c st1 Hwf _ _ _ _ H | l s c st1 Hwf _ _ _ _ H].
  - rewrite mark_mine_spec in H by done. injection H as <-.
    split.
    + by apply updated_wf.
    + by rewrite updated_length.
    + intros l'. apply (updated_live_or_empty _ (mark_mine_shrinks c)). done.
  - rewrite mark_safe_spec in H by done. injection H as <-.
    split.
    + by apply updated_wf.
    + by rewrite updated_length.
    + intros l'. apply (updated_live_or_empty _ (mark_safe_shrinks c)). done.
Qed.

Lemma mark_steps_kept st st' : wf st → rtc mark_step st st' → mark_kept st st'.
Proof.
  intros Hwf Hrtc. induction Hrtc as [|st1 st2 st3 H12 _ IH].
  - by apply mark_kept_refl.
  - pose proof (mark_step_kept _ _ H12) as Hk.
    eapply mark_kept_trans; [done | apply IH, Hk].
Qed.

(** The inner loops of [mark_mines_safes]: every cell of a resolved
    sentence is marked, one step per cell. *)
Lemma mark_all_mines l cs : ∀ st s,
  NoDup cs → wf st → heap st !! l = Some s →
  (∀ c, c ∈ cs → c ∈ cells s) → len (cells s) = count s →
  (cs ≠ [] → l ∈ knowledge st) →
  ∃ st', for_each mark_mine cs st = Ok st' ∧ rtc mark_step st st'.
Proof.
  induction cs as [|c cs IH]; intros st s Hnd Hwf Hs Hcs Hlen Hl.
  - exists st. by split.
  - apply NoDup_cons in Hnd as [Hc Hnd].
    assert (c ∈ cells s) as Hin by (apply Hcs; left).
    rewrite for_each_cons, mark_mine_spec by done. cbn [mbind outcome_bind].
    set (st1 := updated _ _).
    assert (mark_step st st1) as Hstep.
    { eapply step_mine; [done | by apply Hl | done.. | by apply mark_mine_spec]. }
    assert (heap st1 !! l = Some (mkSentence (cells s ∖ {[c]}) (count s - 1))) as Hs1.
    { unfold st1. erewrite updated_lookup_in; [| by apply Hl | exact Hs].
      unfold Sentence.mark_mine. by rewrite bool_decide_eq_true_2. }
    destruct (IH st1 _ Hnd (kept_wf _ _ (mark_step_kept _ _ Hstep)) Hs1)
      as (st' & Hrun & Hsteps).
    + cbn [cells]. intros c' Hc'. apply elem_of_difference. split.
      * apply Hcs. by right.
      * intros ->%elem_of_singleton. done.
    + cbn [cells count]. unfold len in *. rewrite (size_remove _ _ Hin) in Hlen. lia.
    + intros Hne. destruct cs as [|c' cs]; [done|].
      unfold st1. apply updated_knowledge. split; [by apply Hl|].
      fold st1. apply (emptyb_false _ _ _ Hs1). cbn [cells].
      assert (c' ∈ cells s) by (apply Hcs; right; left).
      assert (c' ≠ c) by (intros ->; apply Hc; left).
      set_solver.
    + exists st'. split; [done|]. by eapply rtc_l.
Qed.

Lemma mark_all_safes l cs : ∀ st s,
  NoDup cs → wf st → heap st !! l = Some s →
  (∀ c, c ∈ cs → c ∈ cells s) → count s = 0 →
  (cs ≠ [] → l ∈ knowledge st) →
  ∃ st', for_each mark_safe cs st = Ok st' ∧ rtc mark_step st st'.
Proof.
  induction cs as [|c cs IH]; intros st s Hnd Hwf Hs Hcs Hlen Hl.
  - exists st. by split.
  - apply NoDup_cons in Hnd as [Hc Hnd].
    assert (c ∈ cells s) as Hin by (apply Hcs; left).
    rewrite for_each_cons, mark_safe_spec by done. cbn [mbind outcome_bind].
    set (st1 := updated _ _).
    assert (mark_step st st1) as Hstep.
    { eapply step_safe; [done | by apply Hl | done.. | by apply mark_safe_spec]. }
    assert (heap st1 !! l = Some (mkSentence (cells s ∖ {[c]}) (count s))) as Hs1.
    { unfold st1. erewrite updated_lookup_in; [| by apply Hl | exact Hs].
      unfold Sentence.mark_safe. by rewrite bool_decide_eq_true_2. }
    destruct (IH st1 _ Hnd (kept_wf _ _ (mark_step_kept _ _ Hstep)) Hs1)
      as (st' & Hrun & Hsteps).
    + cbn [cells]. intros c' Hc'. apply elem_of_difference. split.
      * apply Hcs. by right.
      * intros ->%elem_of_singleton. done.
    + done.
    + intros Hne. destruct cs as [|c' cs]; [done|].
      unfold st1. apply updated_knowledge. split; [by apply Hl|].
      fold st1. apply (emptyb_false _ _ _ Hs1). cbn [cells].
      assert (c' ∈ cells s) by (apply Hcs; right; left).
      assert (c' ≠ c) by (intros ->; apply Hc; left).
      set_solver.
    + exists st'. split; [done|]. by eapply rtc_l.
Qed.

(** [mark_mines_safes] returns, and what it does is a sequence of marking
    steps. *)
Lemma mark_mines_safes_steps st :
  wf st → ∃ st', mark_mines_safes st = Ok st' ∧ rtc mark_step st st'.
Proof.
  intros Hwf. unfold mark_mines_safes.
  apply (for_each_inv (λ s, rtc mark_step st s)); [done|].
  intros l st1 Hl Hsteps.
  destruct (mark_steps_kept _ _ Hwf Hsteps) as [Hwf1 Hlen1 Hlive1].
  destruct (lookup_lt_is_Some_2 (heap st1) l) as [s Hs].
  { rewrite Hlen1. by apply Hwf. }
  rewrite (deref_lookup _ _ _ Hs). cbn [mbind outcome_bind].
  assert (elements (cells s) ≠ [] → l ∈ knowledge st1) as Hlive.
  { intros Hne. destruct (Hlive1 l) as [?|He]; [by left | done |].
    apply emptyb_true in He as (s' & Hs' & He). rewrite Hs in Hs'.
    injection Hs' as <-. rewrite He, elements_empty in Hne. done. }
  case_bool_decide as Hm; [|case_bool_decide as Hz].
  - destruct (mark_all_mines l (elements (cells s)) st1 s) as (st2 & Hrun & H2);
      [apply NoDup_elements | done | done | set_solver | done | done |].
    exists st2. split; [done|]. by etrans.
  - destruct (mark_all_safes l (elements (cells s)) st1 s) as (st2 & Hrun & H2);
      [apply NoDup_elements | done | done | set_solver | done | done |].
    exists st2. split; [done|]. by etrans.
  - by exists st1.
Qed.

(** What a resolution step keeps. *)
Lemma resolve_step_kept st st' :
  resolve_step st st' →
  wf st' ∧ knowledge st' = knowledge st ∧ length (heap st') = length (heap st).
Proof.
  intros [l1 l2 s1 s2 Hwf _ _ _ _ _ _ _ _]. unfold store, set_heap, wf.
  cbn [heap knowledge]. rewrite length_insert. done.
Qed.

Lemma resolve_steps_kept st st' :
  wf st → rtc resolve_step st st' →
  wf st' ∧ knowledge st' = knowledge st ∧ length (heap st') = length (heap st).
Proof.
  intros Hwf Hrtc. induction Hrtc as [|st1 st2 st3 H12 _ IH]; [done|].
  destruct (resolve_step_kept _ _ H12) as (Hwf2 & Hk & Hl).
  destruct (IH Hwf2) as (? & ? & ?). split_and!; [done | congruence..].
Qed.

Lemma scanned_kept st acc :
  wf st → scanned st acc →
  wf acc.1 ∧ knowledge acc.1 = knowledge st
  ∧ length (heap acc.1) = length (heap st).
Proof.
  intros Hwf. destruct acc as [st1 []]; unfold scanned; simpl.
  - intros H%tc_rtc. by apply resolve_steps_kept.
  - by intros ->.
Qed.

Lemma resolve_pair_spec l1 l2 st acc :
  wf st → l1 ∈ knowledge st → l2 ∈ knowledge st → scanned st acc →
  ∃ acc', resolve_pair l1 l2 acc = Ok acc' ∧ scanned st acc'.
Proof.
  intros Hwf H1 H2 Hacc.
  destruct (scanned_kept _ _ Hwf Hacc) as (Hwf1 & Hk & Hlen).
  destruct acc as [st1 d]. cbn [fst snd] in *. unfold resolve_pair.
  destruct (lookup_lt_is_Some_2 (heap st1) l1) as [s1 Hs1];
    [rewrite Hlen; by apply Hwf|].
  destruct (lookup_lt_is_Some_2 (heap st1) l2) as [s2 Hs2];
    [rewrite Hlen; by apply Hwf|].
  rewrite (deref_lookup _ _ _ Hs1), (deref_lookup _ _ _ Hs2).
  cbn [mbind outcome_bind].
  destruct (Sentence.ne s1 s2 && negb (bool_decide (len (cells s1) = 0))
            && negb (bool_decide (len (cells s2) = 0))) eqn:Hguard.
  2:{ exists (st1, d). by split. }
  destruct (bool_decide (cells s1 ⊆ cells s2)) eqn:Hsub.
  2:{ exists (st1, d). by split. }
  apply bool_decide_eq_true in Hsub.
  apply andb_true_iff in Hguard as [[Hne He1]%andb_true_iff He2].
  apply negb_true_iff, bool_decide_eq_false in He1, He2.
  rewrite len_0 in He1, He2.
  unfold Sentence.ne in Hne. apply negb_true_iff, not_true_iff_false in Hne.
  rewrite Sentence_eq_spec in Hne.
  eexists. split; [done|]. unfold scanned. cbn [fst snd].
  assert (resolve_step st1
            (store l2 (mkSentence (cells s2 ∖ cells s1) (count s2 - count s1)) st1))
    as Hstep by (apply (step_resolve st1 l1 l2 s1 s2); by rewrite ?Hk).
  destruct d; unfold scanned in Hacc; simpl in Hacc.
  - by eapply tc_r.
  - subst st1. by apply tc_once.
Qed.

Lemma scan_pairs_spec st :
  wf st → ∃ acc, scan_pairs st = Ok acc ∧ scanned st acc.
Proof.
  intros Hwf. unfold scan_pairs.
  apply (for_each_inv (scanned st)); [done|].
  intros l1 acc1 Hl1 Hacc1.
  apply (for_each_inv (scanned st)); [done|].
  intros l2 acc2 Hl2 Hacc2. by apply resolve_pair_spec.
Qed.

(** One iteration of the loop of [draw_interferences] returns; it consists
    of resolution steps (at least one when [drawn] is set, none otherwise)
    followed by marking steps. *)
Lemma pass_spec st :
  wf st →
  ∃ st1 st' drawn, pass st = Ok (st', drawn)
    ∧ scanned st (st1, drawn) ∧ rtc mark_step st1 st'.
Proof.
  intros Hwf. unfold pass.
  destruct (scan_pairs_spec st Hwf) as ([st1 d] & -> & Hacc).
  cbn [mbind outcome_bind].
  destruct (scanned_kept _ _ Hwf Hacc) as (Hwf1 & _).
  destruct (mark_mines_safes_steps st1 Hwf1) as (st' & -> & Hsteps).
  cbn [mbind outcome_bind]. by exists st1, st', d.
Qed.

(** ** The measure of the loop *)

Lemma resolve_step_size st st' :
  resolve_step st st' → (kb_size st' < kb_size st)%nat.
Proof.
  intros [l1 l2 s1 s2 Hwf H1 H2 Hs1 Hs2 Hne He1 He2 Hsub].
  unfold kb_size, store, set_heap. cbn [heap knowledge].
  apply sum_list_with_lt with l2; [|done|].
  - intros l _. destruct (decide (l = l2)) as [->|Hl].
    + rewrite list_lookup_insert_eq by (by eapply lookup_lt_Some).
      rewrite Hs2. simpl. apply subseteq_size. set_solver.
    + by rewrite list_lookup_insert_ne.
  - rewrite list_lookup_insert_eq by (by eapply lookup_lt_Some).
    rewrite Hs2. simpl. rewrite size_difference by done.
    assert (len (cells s1) ≠ 0) by by rewrite len_0.
    pose proof (subseteq_size _ _ Hsub). unfold len in *. lia.
Qed.

Lemma mark_step_size st st' :
  mark_step st st' → (kb_size st' < kb_size st)%nat.
Proof.
  intros [l s c st1 Hwf Hl Hs _ Hc H | l s c st1 Hwf Hl Hs _ Hc H].
  - rewrite mark_mine_spec in H by done. injection H as <-.
    apply (updated_kb_size_lt _ (mark_mine_shrinks c) (set_mines _ st) l s);
      [done..|].
    unfold Sentence.mark_mine. rewrite bool_decide_eq_true_2 by done.
    cbn [cells]. rewrite (size_remove _ _ Hc). lia.
  - rewrite mark_safe_spec in H by done. injection H as <-.
    apply (updated_kb_size_lt _ (mark_safe_shrinks c) (set_safes _ st) l s);
      [done..|].
    unfold Sentence.mark_safe. rewrite bool_decide_eq_true_2 by done.
    cbn [cells]. rewrite (size_remove _ _ Hc). lia.
Qed.

Lemma engine_step_size st st' :
  engine_step st st' → (kb_size st' < kb_size st)%nat.
Proof. intros [?|?]; [by apply resolve_step_size | by apply mark_step_size]. Qed.

Lemma engine_steps_size st st' :
  rtc engine_step st st' → st' = st ∨ (kb_size st' < kb_size st)%nat.
Proof.
  induction 1 as [|st1 st2 st3 H12 _ IH]; [by left|].
  right. apply engine_step_size in H12. destruct IH as [->|]; lia.
Qed.

Lemma engine_steps_size_tc st st' :
  tc engine_step st st' → (kb_size st' < kb_size st)%nat.
Proof.
  induction 1 as [st1 st2 H12|st1 st2 st3 H12 _ IH].
  - by apply engine_step_size.
  - apply engine_step_size in H12. lia.
Qed.

Lemma engine_step_wf st st' : engine_step st st' → wf st'.
Proof.
  intros [H|H].
  - by apply resolve_step_kept in H as (? & _).
  - by apply mark_step_kept in H as [].
Qed.

Lemma engine_steps_wf st st' : wf st → rtc engine_step st st' → wf st'.
Proof.
  intros Hwf. induction 1 as [|st1 st2 st3 H12 _ IH]; [done|].
  apply IH. by eapply engine_step_wf.
Qed.

Lemma tc_weaken {A} (R1 R2 : relation A) x y :
  (∀ x y, R1 x y → R2 x y) → tc R1 x y → tc R2 x y.
Proof.
  intros Hsub. induction 1 as [x y H|x y z H _ IH].
  - apply tc_once. by apply Hsub.
  - eapply tc_l; [by apply Hsub | done].
Qed.

(** One iteration in terms of engine steps. *)
Lemma pass_steps st :
  wf st →
  ∃ st' drawn, pass st = Ok (st', drawn)
    ∧ if drawn then tc engine_step st st' else rtc mark_step st st'.
Proof.
  intros Hwf. destruct (pass_spec st Hwf) as (st1 & st' & d & Hp & Hacc & Hsteps).
  exists st', d. split; [done|].
  destruct d; unfold scanned in Hacc; cbn [fst snd] in Hacc.
  - eapply tc_rtc_r.
    + eapply tc_weaken; [|done]. intros ???. by left.
    + eapply rtc_subrel; [|done]. intros ???. by right.
  - by subst st1.
Qed.

Lemma draw_loop_steps fuel : ∀ st,
  wf st → (kb_size st < fuel)%nat →
  ∃ st', draw_loop fuel st = Ok st' ∧ rtc engine_step st st'.
Proof.
  induction fuel as [|fuel IH]; intros st Hwf Hfuel; [lia|].
  destruct (pass_steps st Hwf) as (st1 & d & Hp & Hsteps).
  cbn [draw_loop]. rewrite Hp. cbn [mbind outcome_bind].
  destruct d.
  - pose proof (engine_steps_size_tc _ _ Hsteps).
    destruct (IH st1) as (st' & Hrun & Hsteps');
      [by eapply engine_steps_wf, tc_rtc | lia |].
    exists st'. split; [done|]. etrans; [by apply tc_rtc | done].
  - exists st1. split; [done|].
    eapply rtc_subrel; [|done]. intros ???. by right.
Qed.

(** More iterations than needed do not change the result. *)
Lemma draw_loop_mono n : ∀ m st st',
  draw_loop n st = Ok st' → (n ≤ m)%nat → draw_loop m st = Ok st'.
Proof.
  induction n as [|n IH]; intros m st st' Hrun Hle; [done|].
  destruct m as [|m]; [lia|]. cbn [draw_loop] in *.
  destruct (pass st) as [[st1 []]|]; cbn [mbind outcome_bind] in *; [|done..].
  apply IH; [done | lia].
Qed.

(** ** What the deductions leave alone *)

Lemma frame_refl : Reflexive frame.
Proof. intros st. by split. Qed.

Lemma frame_trans : Transitive frame.
Proof.
  intros st1 st2 st3 [] []. split; [congruence.. | set_solver | set_solver].
Qed.

#[global] Existing Instance frame_refl.
#[global] Existing Instance frame_trans.

Lemma mark_mine_frame c st st' :
  wf st → mark_mine c st = Ok st' →
  frame st st' ∧ mines st' = {[c]} ∪ mines st ∧ safes st' = safes st.
Proof.
  intros Hwf H. rewrite mark_mine_spec in H by done. injection H as <-.
  unfold updated, set_mines; simpl. split; [split|]; simpl; set_solver.
Qed.

Lemma mark_safe_frame c st st' :
  wf st → mark_safe c st = Ok st' →
  frame st st' ∧ safes st' = {[c]} ∪ safes st ∧ mines st' = mines st.
Proof.
  intros Hwf H. rewrite mark_safe_spec in H by done. injection H as <-.
  unfold updated, set_safes; simpl. split; [split|]; simpl; set_solver.
Qed.

Lemma mark_step_frame st st' : mark_step st st' → frame st st'.
Proof.
  intros [l s c st1 Hwf _ _ _ _ H | l s c st1 Hwf _ _ _ _ H].
  - by apply mark_mine_frame in H as [? _].
  - by apply mark_safe_frame in H as [? _].
Qed.

Lemma resolve_step_frame st st' : resolve_step st st' → frame st st'.
Proof. intros []. by split. Qed.

Lemma engine_step_frame st st' : engine_step st st' → frame st st'.
Proof. intros [?|?]; [by apply resolve_step_frame | by apply mark_step_frame]. Qed.

Lemma engine_steps_frame st st' : rtc engine_step st st' → frame st st'.
Proof.
  induction 1 as [|st1 st2 st3 H12 _ IH]; [done|].
  etrans; [by apply engine_step_frame | done].
Qed.

(** ** Facts given from outside *)

Lemma told_step_wf P Q st st' : told_step P Q st st' → wf st'.
Proof.
  intros [c st1 Hwf _ H | c st1 Hwf _ H].
  - rewrite mark_mine_spec in H by done. injection H as <-.
    by apply updated_wf.
  - rewrite mark_safe_spec in H by done. injection H as <-.
    by apply updated_wf.
Qed.

Lemma told_steps_wf P Q st st' : wf st → rtc (told_step P Q) st st' → wf st'.
Proof.
  intros Hwf. induction 1 as [|st1 st2 st3 H12 _ IH]; [done|].
  apply IH. by eapply told_step_wf.
Qed.

Lemma told_step_frame P Q st st' : told_step P Q st st' → frame st st'.
Proof.
  intros [c st1 Hwf _ H | c st1 Hwf _ H].
  - by apply mark_mine_frame in H as [? _].
  - by apply mark_safe_frame in H as [? _].
Qed.

Lemma told_steps_frame P Q st st' : rtc (told_step P Q) st st' → frame st st'.
Proof.
  induction 1 as [|st1 st2 st3 H12 _ IH]; [done|].
  etrans; [by eapply told_step_frame | done].
Qed.

Lemma set_mines_twice c st :
  set_mines (λ m, {[c]} ∪ m) (set_mines (λ m, {[c]} ∪ m) st)
  = set_mines (λ m, {[c]} ∪ m) st.
Proof. unfold set_mines. simpl. f_equal. set_solver. Qed.

Lemma set_safes_twice c st :
  set_safes (λ m, {[c]} ∪ m) (set_safes (λ m, {[c]} ∪ m) st)
  = set_safes (λ m, {[c]} ∪ m) st.
Proof. unfold set_safes. simpl. f_equal. set_solver. Qed.

Lemma mark_mine_added c st :
  mark_mine c (set_mines (λ m, {[c]} ∪ m) st) = mark_mine c st.
Proof. unfold mark_mine. by rewrite set_mines_twice. Qed.

Lemma mark_safe_added c st :
  mark_safe c (set_safes (λ m, {[c]} ∪ m) st) = mark_safe c st.
Proof. unfold mark_safe. by rewrite set_safes_twice. Qed.

Lemma tell_mines (P Q : cell → Prop) cs : ∀ st,
  wf st → (∀ c, c ∈ cs → P c) →
  ∃ st', for_each (λ neighbor st,
             mark_mine neighbor (set_mines (λ m, {[neighbor]} ∪ m) st)) cs st
         = Ok st'
    ∧ rtc (told_step P Q) st st'.
Proof.
  induction cs as [|c cs IH]; intros st Hwf HP; [by exists st|].
  rewrite for_each_cons. cbv beta. rewrite mark_mine_added.
  pose proof (mark_mine_spec c st Hwf) as Hc. rewrite Hc.
  cbn [mbind outcome_bind].
  assert (told_step P Q st (updated (Sentence.mark_mine c) (set_mines (λ m, {[c]} ∪ m) st)))
    as Hstep by (eapply told_mine; [done | apply HP; left | done]).
  destruct (IH _ (told_step_wf _ _ _ _ Hstep)) as (st' & Hrun & Hsteps).
  { intros c' Hc'. apply HP. by right. }
  exists st'. split; [done|]. by eapply rtc_l.
Qed.

Lemma tell_safes (P Q : cell → Prop) cs : ∀ st,
  wf st → (∀ c, c ∈ cs → Q c) →
  ∃ st', for_each (λ neighbor st,
             mark_safe neighbor (set_safes (λ m, {[neighbor]} ∪ m) st)) cs st
         = Ok st'
    ∧ rtc (told_step P Q) st st'.
Proof.
  induction cs as [|c cs IH]; intros st Hwf HP; [by exists st|].
  rewrite for_each_cons. cbv beta. rewrite mark_safe_added.
  pose proof (mark_safe_spec c st Hwf) as Hc. rewrite Hc.
  cbn [mbind outcome_bind].
  assert (told_step P Q st (updated (Sentence.mark_safe c) (set_safes (λ m, {[c]} ∪ m) st)))
    as Hstep by (eapply told_safe; [done | apply HP; left | done]).
  destruct (IH _ (told_step_wf _ _ _ _ Hstep)) as (st' & Hrun & Hsteps).
  { intros c' Hc'. apply HP. by right. }
  exists st'. split; [done|]. by eapply rtc_l.
Qed.

Lemma appended_wf s st : wf st → wf (appended s st).
Proof.
  intros Hwf l. unfold appended, set_knowledge, set_heap. cbn [knowledge heap].
  rewrite length_app. cbn [length].
  intros [Hl| ->%list_elem_of_singleton]%elem_of_app; [|lia].
  apply Hwf in Hl. lia.
Qed.

(** [draw_interferences] returns, whatever the bound above its measure. *)
Lemma draw_interferences_steps st :
  wf st →
  ∃ st', draw_interferences st = Ok st' ∧ rtc engine_step st st'
    ∧ ∀ fuel, (kb_size st < fuel)%nat → draw_loop fuel st = Ok st'.
Proof.
  intros Hwf. unfold draw_interferences.
  destruct (draw_loop_steps (S (kb_size st)) st Hwf) as (st' & Hrun & Hsteps); [lia|].
  exists st'. split_and!; [done..|].
  intros fuel Hfuel. eapply draw_loop_mono; [done | lia].
Qed.

(** [add_knowledge] returns on every well-formed state, for every cell and
    count.  It marks the cell as safe, builds the new sentence, marks its
    cells if it is resolved, appends it, and makes deduction steps. *)
Lemma add_knowledge_run c n st :
  wf st →
  ∃ st1 st2 st',
    let ns := new_sentence st1 (neighbors (height st1) (width st1) c) n in
    let s := mkSentence ns.1 ns.2 in
    add_knowledge c n st = Ok st'
    ∧ mark_safe c (set_moves_made (λ m, {[c]} ∪ m) st) = Ok st1
    ∧ rtc (told_step (told_mines s) (told_safes c s)) st1 st2
    ∧ rtc engine_step (appended s st2) st'.
Proof.
  intros Hwf. unfold add_knowledge.
  assert (wf (set_moves_made (λ m, {[c]} ∪ m) st)) as Hwf0 by done.
  pose proof (mark_safe_spec c _ Hwf0) as H1. rewrite H1.
  set (st1 := updated _ _) in *. cbn [mbind outcome_bind].
  assert (wf st1) as Hwf1 by by apply updated_wf.
  destruct (new_sentence st1 (neighbors (height st1) (width st1) c) n)
    as [cs k] eqn:Hns.
  set (s := mkSentence cs k).
  assert (∃ st2, (if bool_decide (k = 0) then
            for_each (λ neighbor st,
                mark_safe neighbor (set_safes (λ m, {[neighbor]} ∪ m) st))
              (elements cs) st1
          else if bool_decide (len cs = k) then
            for_each (λ neighbor st,
                mark_mine neighbor (set_mines (λ m, {[neighbor]} ∪ m) st))
              (elements cs) st1
          else Ok st1) = Ok st2
          ∧ rtc (told_step (told_mines s) (told_safes c s)) st1 st2)
    as (st2 & -> & Htold).
  { case_bool_decide as Hk; [|case_bool_decide as Hlen].
    - apply tell_safes; [done|]. intros x Hx%elem_of_elements. by right.
    - apply tell_mines; [done|]. intros x Hx%elem_of_elements. done.
    - by exists st1. }
  cbn [mbind outcome_bind].
  pose proof (told_steps_wf _ _ _ _ Hwf1 Htold) as Hwf2.
  fold (appended s st2).
  destruct (mark_mines_safes_steps _ (appended_wf s st2 Hwf2)) as (st3 & -> & H3).
  cbn [mbind outcome_bind].
  assert (rtc engine_step (appended s st2) st3) as H3'
    by (eapply rtc_subrel; [|done]; intros ???; by right).
  destruct (draw_interferences_steps st3) as (st' & -> & H4 & _);
    [eapply engine_steps_wf; [by apply appended_wf | done] |].
  exists st1, st2, st'. cbn zeta. rewrite Hns. cbn [fst snd]. fold s.
  split_and!; [done.. |]. by etrans.
Qed.

(** ** The new sentence of [add_knowledge] *)

Lemma excluded_moves st : moves_made st ≠ ∅ → excluded st = moves_made st.
Proof.
  intros Hne. unfold excluded, py_or.
  rewrite (bool_decide_eq_false_2 (moves_made st = ∅)) by done.
  by rewrite bool_decide_eq_false_2.
Qed.

Lemma new_sentence_fold st l : ∀ A k,
  NoDup l →
  foldl (λ '(cells, count) neighbor,
      if negb (bool_decide (neighbor ∈ excluded st))
      then ({[neighbor]} ∪ cells, count)
      else if bool_decide (neighbor ∈ mines st)
      then (cells, count - 1)
      else (cells, count)) (A, k) l
  = (A ∪ (list_to_set l ∖ excluded st),
     k - len (list_to_set l ∩ excluded st ∩ mines st)).
Proof.
  induction l as [|x l IH]; intros A k Hnd.
  - simpl. f_equal; [set_solver|].
    replace (∅ ∩ excluded st ∩ mines st) with (∅ : gset cell) by set_solver.
    unfold len. rewrite size_empty. lia.
  - apply NoDup_cons in Hnd as [Hx Hnd]. cbn [foldl list_to_set].
    assert (x ∉ (list_to_set l : gset cell)) as Hx' by by rewrite elem_of_list_to_set.
    case_bool_decide as Hex; cbn [negb]; [case_bool_decide as Hm|]; rewrite IH by done.
    + f_equal; [set_solver|].
      replace (({[x]} ∪ list_to_set l) ∩ excluded st ∩ mines st)
        with ({[x]} ∪ (list_to_set l ∩ excluded st ∩ mines st)) by set_solver.
      rewrite len_add by set_solver. lia.
    + f_equal; [set_solver|]. do 2 f_equal. set_solver.
    + f_equal; [set_solver|]. do 2 f_equal. set_solver.
Qed.

(** The loop gives the same sentence in whatever order it visits the
    neighbours. *)
Lemma new_sentence_any_order (st : AI) (l l' : list cell)
    (A : gset cell) (k : Z) :
  NoDup l → l ≡ₚ l' →
  foldl (λ '(cells, count) neighbor,
      if negb (bool_decide (neighbor ∈ excluded st))
      then ({[neighbor]} ∪ cells, count)
      else if bool_decide (neighbor ∈ mines st)
      then (cells, count - 1)
      else (cells, count)) (A, k) l
  = foldl (λ '(cells, count) neighbor,
      if negb (bool_decide (neighbor ∈ excluded st))
      then ({[neighbor]} ∪ cells, count)
      else if bool_decide (neighbor ∈ mines st)
      then (cells, count - 1)
      else (cells, count)) (A, k) l'.
Proof.
  intros Hnd Hperm. rewrite !new_sentence_fold by by rewrite <- ?Hperm.
  by rewrite (list_to_set_perm_L (C:=gset cell) _ _ Hperm).
Qed.

(** The new sentence holds the neighbours outside the excluded set; its
    count is lowered once for each excluded neighbour that is a known
    mine. *)
Lemma new_sentence_spec st N n :
  new_sentence st N n
  = (N ∖ excluded st, n - len (N ∩ excluded st ∩ mines st)).
Proof.
  unfold new_sentence. fold (excluded st).
  rewrite new_sentence_fold by apply NoDup_elements.
  rewrite list_to_set_elements_L. f_equal. set_solver.
Qed.

(** ** Soundness with respect to a placement of the mines *)

Lemma true_of_bounds M s : true_of M s → 0 ≤ count s ≤ len (cells s).
Proof.
  unfold true_of, len. intros ->.
  assert (size (cells s ∩ M) ≤ size (cells s))%nat by (apply subseteq_size; set_solver).
  lia.
Qed.

Lemma true_of_all_mines M s :
  true_of M s → len (cells s) = count s → cells s ⊆ M.
Proof.
  unfold true_of, len. intros Ht Hlen.
  assert (cells s ∩ M = cells s) as Heq; [|set_solver].
  apply set_subseteq_size_eq; [set_solver | lia].
Qed.

Lemma true_of_all_safe M s : true_of M s → count s = 0 → cells s ## M.
Proof.
  unfold true_of. intros -> He%len_0. set_solver.
Qed.

Lemma true_of_mark_mine M c s :
  c ∈ M → true_of M s → true_of M (Sentence.mark_mine c s).
Proof.
  unfold true_of, Sentence.mark_mine. intros Hc Ht.
  case_bool_decide as Hin; [|done]. cbn [cells count].
  replace (cells s ∖ {[c]} ∩ M) with ((cells s ∩ M) ∖ {[c]}) by set_solver.
  unfold len in *. rewrite (size_remove (cells s ∩ M) c) in Ht by set_solver. lia.
Qed.

Lemma true_of_mark_safe M c s :
  c ∉ M → true_of M s → true_of M (Sentence.mark_safe c s).
Proof.
  unfold true_of, Sentence.mark_safe. intros Hc Ht.
  case_bool_decide as Hin; [|done]. cbn [cells count].
  replace (cells s ∖ {[c]} ∩ M) with (cells s ∩ M) by set_solver. done.
Qed.

Lemma true_of_resolve M s1 s2 :
  true_of M s1 → true_of M s2 → cells s1 ⊆ cells s2 →
  true_of M (mkSentence (cells s2 ∖ cells s1) (count s2 - count s1)).
Proof.
  unfold true_of. intros -> -> Hsub. cbn [cells count].
  replace (cells s2 ∖ cells s1 ∩ M) with ((cells s2 ∩ M) ∖ (cells s1 ∩ M)) by set_solver.
  unfold len. rewrite (size_difference (cells s2 ∩ M) (cells s1 ∩ M)) by set_solver.
  assert (size (cells s1 ∩ M) ≤ size (cells s2 ∩ M))%nat
    by (apply subseteq_size; set_solver).
  lia.
Qed.

Lemma init_sound M h w : sound M (init h w).
Proof.
  split; unfold init; simpl; [|set_solver..].
  intros s Hs. by apply elem_of_nil in Hs.
Qed.

Lemma init_wf h w : wf (init h w).
Proof. intros l Hl. by apply elem_of_nil in Hl. Qed.

Lemma updated_true M upd st :
  (∀ s, true_of M s → true_of M (upd s)) →
  (∀ s, s ∈ heap st → true_of M s) →
  ∀ s, s ∈ heap (updated upd st) → true_of M s.
Proof.
  intros Hupd Hheap s' [l Hl]%list_elem_of_lookup.
  apply updated_lookup_inv in Hl as (s & Hs & [->| ->]).
  - apply Hheap. by eapply list_elem_of_lookup_2.
  - apply Hupd, Hheap. by eapply list_elem_of_lookup_2.
Qed.

Lemma mark_mine_sound M c st st' :
  wf st → c ∈ M → sound M st → mark_mine c st = Ok st' → sound M st'.
Proof.
  intros Hwf Hc [Hh Hm Hs Hmv] H.
  rewrite mark_mine_spec in H by done. injection H as <-.
  split.
  - apply updated_true; [|done]. intros s. by apply true_of_mark_mine.
  - unfold updated, set_mines; simpl. set_solver.
  - done.
  - done.
Qed.

Lemma mark_safe_sound_moved M c st st' :
  wf st → c ∉ M →
  (∀ s, s ∈ heap st → true_of M s) → mines st ⊆ M → safes st ## M →
  moves_made st ⊆ {[c]} ∪ safes st →
  mark_safe c st = Ok st' → sound M st'.
Proof.
  intros Hwf Hc Hh Hm Hs Hmv H.
  rewrite mark_safe_spec in H by done. injection H as <-.
  split.
  - apply updated_true; [|done]. intros s. by apply true_of_mark_safe.
  - done.
  - unfold updated, set_safes; simpl. set_solver.
  - unfold updated, set_safes; simpl in *. set_solver.
Qed.

Lemma mark_safe_sound M c st st' :
  wf st → c ∉ M → sound M st → mark_safe c st = Ok st' → sound M st'.
Proof.
  intros Hwf Hc [Hh Hm Hs Hmv] H.
  eapply mark_safe_sound_moved; [done.. | set_solver | done].
Qed.

Lemma mark_step_sound M st st' : sound M st → mark_step st st' → sound M st'.
Proof.
  intros Hsound [l s c st1 Hwf Hl Hs Hlen Hc H | l s c st1 Hwf Hl Hs Hz Hc H].
  - eapply mark_mine_sound; [done | | done | done].
    assert (true_of M s) as Ht
      by (eapply sound_heap; [done | by eapply list_elem_of_lookup_2]).
    by apply (true_of_all_mines M s Ht Hlen).
  - eapply mark_safe_sound; [done | | done | done].
    assert (true_of M s) as Ht
      by (eapply sound_heap; [done | by eapply list_elem_of_lookup_2]).
    pose proof (true_of_all_safe M s Ht Hz). set_solver.
Qed.

Lemma resolve_step_sound M st st' :
  sound M st → resolve_step st st' → sound M st'.
Proof.
  intros [Hh Hm Hs Hmv] [l1 l2 s1 s2 Hwf H1 H2 Hs1 Hs2 Hne He1 He2 Hsub].
  split; [|done..].
  unfold store, set_heap. cbn [heap]. intros s [l Hl]%list_elem_of_lookup.
  destruct (decide (l = l2)) as [->|Hll].
  - rewrite list_lookup_insert_eq in Hl by (by eapply lookup_lt_Some).
    injection Hl as <-.
    apply true_of_resolve; [| |done]; apply Hh; by eapply list_elem_of_lookup_2.
  - rewrite list_lookup_insert_ne in Hl by done.
    apply Hh. by eapply list_elem_of_lookup_2.
Qed.

Lemma engine_steps_sound M st st' :
  sound M st → rtc engine_step st st' → sound M st'.
Proof.
  intros Hsound. induction 1 as [|st1 st2 st3 H12 _ IH]; [done|].
  apply IH. destruct H12; [by eapply resolve_step_sound | by eapply mark_step_sound].
Qed.

Lemma told_steps_sound M (P Q : cell → Prop) st st' :
  (∀ c, P c → c ∈ M) → (∀ c, Q c → c ∉ M) →
  sound M st → rtc (told_step P Q) st st' → sound M st'.
Proof.
  intros HP HQ Hsound. induction 1 as [|st1 st2 st3 H12 _ IH]; [done|].
  apply IH. destruct H12 as [c st' Hwf Hc H|c st' Hwf Hc H].
  - eapply mark_mine_sound; [done | by apply HP | done | done].
  - eapply mark_safe_sound; [done | by apply HQ | done | done].
Qed.

Lemma appended_sound M s st : true_of M s → sound M st → sound M (appended s st).
Proof.
  intros Ht [Hh Hm Hs Hmv]. split; [|done..].
  unfold appended, set_heap, set_knowledge. cbn [heap].
  intros s' [Hs'| ->%list_elem_of_singleton]%elem_of_app; auto.
Qed.

(** [add_knowledge] keeps the knowledge sound when it is given an
    observation that agrees with the placement. *)
Lemma add_knowledge_sound M c n st st' :
  wf st → sound M st → consistent M (height st) (width st) c n →
  add_knowledge c n st = Ok st' → sound M st'.
Proof.
  intros Hwf Hsound [Hc Hn] Hrun.
  destruct (add_knowledge_run c n st Hwf) as (st1 & st2 & st'' & Hrun' & H1 & H2 & H3).
  rewrite Hrun in Hrun'. injection Hrun' as <-.
  assert (wf (set_moves_made (λ m, {[c]} ∪ m) st)) as Hwf0 by done.
  assert (sound M st1) as Hsound1.
  { destruct Hsound as [Hh Hm Hs Hmv].
    eapply mark_safe_sound_moved; [exact Hwf0 | exact Hc | done.. | | exact H1].
    unfold set_moves_made; simpl. set_solver. }
  pose proof (mark_safe_frame _ _ _ Hwf0 H1) as ([Hh1 Hw1 Hmv1 _ _] & Hs1 & _).
  cbn [set_moves_made height width moves_made safes] in *.
  rewrite new_sentence_spec in H2, H3. cbn [fst snd] in *.
  rewrite excluded_moves in H2, H3 by (rewrite Hmv1; set_solver).
  rewrite Hh1, Hw1 in H2, H3.
  set (N := neighbors (height st) (width st) c) in *.
  set (s := mkSentence _ _) in *.
  assert (true_of M s) as Ht.
  { unfold true_of, s. cbn [cells count].
    destruct Hsound1 as [_ Hm Hs Hmv].
    replace (N ∩ moves_made st1 ∩ mines st1) with (∅ : gset cell) by set_solver.
    replace (N ∖ moves_made st1 ∩ M) with (N ∩ M) by set_solver.
    assert (len ∅ = 0) as -> by by apply len_0.
    rewrite Hn. fold N. lia. }
  assert (sound M st2) as Hsound2.
  { eapply told_steps_sound; [| | exact Hsound1 | exact H2].
    - intros x (Hx & _ & Hlen). by apply (true_of_all_mines M s Ht Hlen).
    - intros x [->|[Hx Hz]]; [done|].
      pose proof (true_of_all_safe M s Ht Hz). set_solver. }
  eapply engine_steps_sound; [|exact H3]. by apply appended_sound.
Qed.

(** ** Runs of the engine *)

Lemma make_safe_move_state pick st : (make_safe_move pick st).2 = st.
Proof. unfold make_safe_move. by case_bool_decide. Qed.

Lemma make_random_move_state rnd st : (make_random_move rnd st).2 = st.
Proof. unfold make_random_move. by case_bool_decide. Qed.

Lemma add_knowledge_wf c n st st' :
  wf st → add_knowledge c n st = Ok st' → wf st'.
Proof.
  intros Hwf Hrun.
  destruct (add_knowledge_run c n st Hwf) as (st1 & st2 & st'' & Hrun' & H1 & H2 & H3).
  rewrite Hrun in Hrun'. injection Hrun' as <-.
  assert (wf (set_moves_made (λ m, {[c]} ∪ m) st)) as Hwf0 by done.
  rewrite mark_safe_spec in H1 by done. injection H1 as <-.
  eapply engine_steps_wf; [|exact H3].
  apply appended_wf. eapply told_steps_wf; [|exact H2].
  by apply updated_wf.
Qed.

Lemma reachable_wf st : reachable st → wf st.
Proof.
  induction 1 as [h w|c n st st' _ IH H|c st st' _ IH H|c st st' _ IH H
                  |pick st _ IH|rnd st _ IH].
  - apply init_wf.
  - by eapply add_knowledge_wf.
  - rewrite mark_mine_spec in H by done. injection H as <-. by apply updated_wf.
  - rewrite mark_safe_spec in H by done. injection H as <-. by apply updated_wf.
  - by rewrite make_safe_move_state.
  - by rewrite make_random_move_state.
Qed.

Lemma agrees_reachable M st : agrees M st → reachable st.
Proof.
  induction 1; [apply reach_init | by eapply reach_add | by eapply reach_mine
                | by eapply reach_safe | by apply reach_safe_move
                | by apply reach_random_move].
Qed.

Lemma agrees_sound M st : agrees M st → sound M st.
Proof.
  induction 1 as [h w|c n st st' Hst IH Hc H|c st st' Hst IH Hc H
                  |c st st' Hst IH Hc H|pick st _ IH|rnd st _ IH].
  - apply init_sound.
  - eapply add_knowledge_sound; [|done..].
    by apply reachable_wf, (agrees_reachable M).
  - eapply mark_mine_sound; [|done..].
    by apply reachable_wf, (agrees_reachable M).
  - eapply mark_safe_sound; [|done..].
    by apply reachable_wf, (agrees_reachable M).
  - by rewrite make_safe_move_state.
  - by rewrite make_random_move_state.
Qed.

(** What [add_knowledge] does to the sets of the engine. *)
Lemma add_knowledge_frame c n st st' :
  wf st → add_knowledge c n st = Ok st' →
  height st' = height st ∧ width st' = width st
  ∧ moves_made st' = {[c]} ∪ moves_made st
  ∧ {[c]} ∪ safes st ⊆ safes st' ∧ mines st ⊆ mines st'.
Proof.
  intros Hwf Hrun.
  destruct (add_knowledge_run c n st Hwf) as (st1 & st2 & st'' & Hrun' & H1 & H2 & H3).
  rewrite Hrun in Hrun'. injection Hrun' as <-.
  assert (wf (set_moves_made (λ m, {[c]} ∪ m) st)) as Hwf0 by done.
  apply mark_safe_frame in H1 as ([] & Hs1 & Hm1); [|done].
  apply told_steps_frame in H2 as [].
  apply engine_steps_frame in H3 as [].
  unfold appended, set_knowledge, set_heap, set_moves_made in *.
  cbn [height width moves_made mines safes] in *.
  split_and!; [congruence | congruence | congruence | set_solver | set_solver].
Qed.

Lemma reachable_moves_safe st : reachable st → moves_made st ⊆ safes st.
Proof.
  induction 1 as [h w|c n st st' Hst IH H|c st st' Hst IH H|c st st' Hst IH H
                  |pick st _ IH|rnd st _ IH].
  - done.
  - apply add_knowledge_frame in H as (_ & _ & Hmv & Hs & _);
      [|by apply reachable_wf]. set_solver.
  - apply mark_mine_frame in H as ([] & _ & ?); [|by apply reachable_wf].
    set_solver.
  - apply mark_safe_frame in H as ([] & ? & _); [|by apply reachable_wf].
    set_solver.
  - by rewrite make_safe_move_state.
  - by rewrite make_random_move_state.
Qed.

(** ** The scenarios *)


(** The states of the scenarios are reached by observations that agree
    with a placement of the mines. *)
Lemma mine_at_the_left_agrees : agrees {[(0,0)]} mine_at_the_left.
Proof.
  apply (agrees_add _ (0,1) 1 (init 1 3)).
  - apply agrees_init.
  - split; [compute_done | vm_compute; reflexivity].
  - vm_compute. reflexivity.
Defined.

Lemma mine_in_the_middle_agrees : agrees {[(0,1)]} mine_in_the_middle.
Proof.
  apply (agrees_add _ (0,0) 1 (init 1 3)).
  - apply agrees_init.
  - split; [compute_done | vm_compute; reflexivity].
  - vm_compute. reflexivity.
Defined.

Lemma all_moved_agrees : agrees ∅ all_moved.
Proof.
  apply (agrees_add _ (0,0) 0 (init 1 1)).
  - apply agrees_init.
  - split; [compute_done | vm_compute; reflexivity].
  - vm_compute. reflexivity.
Defined.

(** [add_knowledge] appends its new sentence also when it has no cells:
    on a 1x1 board without mines, revealing the cell leaves [{} = 0] in
    the knowledge list.  [mark_mine] and [mark_safe] remove such a
    sentence the next time they run. *)
Lemma add_knowledge_appends_empty_sentence :
  agrees ∅ all_moved
  ∧ knowledge all_moved = [0%nat]
  ∧ heap all_moved !! 0%nat = Some (mkSentence ∅ 0).
Proof. split; [exact all_moved_agrees | done]. Qed.

(** ** The move selectors *)

Lemma elem_of_range a b x : x ∈ range a b ↔ a ≤ x < b.
Proof. unfold range. rewrite elem_of_seqZ. lia. Qed.

Section candidates.
Context (ok : cell → bool).

Lemma elem_of_row_scan row cols : ∀ (acc : list cell) x,
  x ∈ foldl (λ cells col,
         if ok (row, col) then cells ++ [(row, col)] else cells) acc cols
  ↔ x ∈ acc ∨ (x.1 = row ∧ x.2 ∈ cols ∧ ok x = true).
Proof.
  induction cols as [|col cols IH]; intros acc x; cbn [foldl].
  - rewrite elem_of_nil. tauto.
  - rewrite IH, elem_of_cons. destruct x as [r c]. cbn [fst snd].
    destruct (ok (row, col)) eqn:E.
    + rewrite elem_of_app, list_elem_of_singleton. split.
      * intros [[?|[= -> ->]]|(-> & ? & ?)]; auto.
      * intros [?|(-> & [->|?] & ?)]; auto.
    + split.
      * intros [?|(-> & ? & ?)]; auto.
      * intros [?|(-> & [->|?] & ?)]; auto. congruence.
Qed.

Lemma elem_of_grid_scan rows cols : ∀ (acc : list cell) x,
  x ∈ foldl (λ cells row,
         foldl (λ cells col,
             if ok (row, col) then cells ++ [(row, col)] else cells)
           cells cols) acc rows
  ↔ x ∈ acc ∨ (x.1 ∈ rows ∧ x.2 ∈ cols ∧ ok x = true).
Proof.
  induction rows as [|row rows IH]; intros acc x; cbn [foldl].
  - rewrite elem_of_nil. tauto.
  - rewrite IH, elem_of_row_scan, elem_of_cons. split.
    + intros [[?|(-> & ? & ?)]|(? & ? & ?)]; auto.
    + intros [?|([->|?] & ? & ?)]; auto.
Qed.

End candidates.

(** The list [cells] that [make_random_move] builds holds the cells of the
    board that are neither moved on nor known mines. *)
Lemma elem_of_candidates st x :
  x ∈ foldl (λ cells row,
         foldl (λ cells col,
             let c := (row, col) in
             if negb (bool_decide (c ∈ moves_made st))
                && negb (bool_decide (c ∈ mines st))
             then cells ++ [c] else cells)
           cells (range 0 (width st)))
       [] (range 0 (height st))
  ↔ in_grid st x ∧ (x ∉ moves_made st) ∧ (x ∉ mines st).
Proof.
  pose proof (elem_of_grid_scan
    (λ c, negb (bool_decide (c ∈ moves_made st)) && negb (bool_decide (c ∈ mines st)))
    (range 0 (height st)) (range 0 (width st)) [] x) as H.
  cbv zeta. rewrite H. clear H. rewrite elem_of_nil, !elem_of_range.
  rewrite andb_true_iff, !negb_true_iff, !bool_decide_eq_false.
  unfold in_grid. tauto.
Qed.

Lemma lookup_mod {A} (l : list A) n :
  l ≠ [] → ∃ x, l !! (n `mod` length l)%nat = Some x.
Proof.
  intros Hne. apply lookup_lt_is_Some_2, Nat.mod_upper_bound.
  by destruct l.
Qed.

(** ** The cells of the engine are cells of the board *)

Section neighbors.
Context (ok : cell → bool) (P : cell → Prop).
Hypothesis ok_P : ∀ x, ok x = true → P x.

Lemma row_add_inv row cols : ∀ (acc : gset cell),
  (∀ x, x ∈ acc → P x) →
  ∀ x, x ∈ foldl (λ acc col,
             if ok (row, col) then {[(row, col)]} ∪ acc else acc) acc cols →
       P x.
Proof.
  induction cols as [|col cols IH]; intros acc Hacc x; cbn [foldl]; [by auto|].
  apply IH. intros y. destruct (ok (row, col)) eqn:E; [|by auto].
  intros [->%elem_of_singleton|?]%elem_of_union; auto.
Qed.

Lemma grid_add_inv rows cols : ∀ (acc : gset cell),
  (∀ x, x ∈ acc → P x) →
  ∀ x, x ∈ foldl (λ acc row,
             foldl (λ acc col,
                 if ok (row, col) then {[(row, col)]} ∪ acc else acc)
               acc cols) acc rows →
       P x.
Proof.
  induction rows as [|row rows IH]; intros acc Hacc x; cbn [foldl]; [by auto|].
  apply IH. by apply row_add_inv.
Qed.

End neighbors.

Lemma neighbors_in_bounds h w c x :
  x ∈ neighbors h w c → 0 ≤ x.1 < h ∧ 0 ≤ x.2 < w.
Proof.
  unfold neighbors. destruct c as [i j].
  exact (grid_add_inv
           (λ '(row, col),
              bool_decide (0 ≤ row < h) && bool_decide (0 ≤ col < w)
              && negb (bool_decide ((row, col) = (i, j))))
           (λ x, 0 ≤ x.1 < h ∧ 0 ≤ x.2 < w)
           (λ '(row, col) Hok,
              match andb_prop _ _ Hok with
              | conj Hrc _ =>
                  match andb_prop _ _ Hrc with
                  | conj Hr Hc =>
                      conj (bool_decide_eq_true_1 _ Hr) (bool_decide_eq_true_1 _ Hc)
                  end
              end)
           (range (i - 1) (i + 2)) (range (j - 1) (j + 2)) ∅
           (λ y Hy, False_ind _ (not_elem_of_empty y Hy)) x).
Qed.

Lemma updated_on_board upd st :
  (∀ s, cells (upd s) ⊆ cells s) →
  (∀ s x, s ∈ heap st → x ∈ cells s → in_grid st x) →
  ∀ s x, s ∈ heap (updated upd st) → x ∈ cells s → in_grid (updated upd st) x.
Proof.
  intros Hupd Hheap s' x [l Hl]%list_elem_of_lookup Hx.
  apply updated_lookup_inv in Hl as (s & Hs & [->| ->]).
  - apply (Hheap s); [by eapply list_elem_of_lookup_2 | done].
  - apply (Hheap s); [by eapply list_elem_of_lookup_2 |].
    by apply (Hupd s).
Qed.

Lemma mark_mine_on_board c st st' :
  wf st → on_board st → mark_mine c st = Ok st' → on_board st'.
Proof.
  intros Hwf [Hh Hs] H.
  rewrite mark_mine_spec in H by done. injection H as <-.
  split; [|done].
  apply (updated_on_board _ (set_mines _ st) (mark_mine_shrinks c)). done.
Qed.

Lemma mark_safe_on_board c st st' :
  wf st → in_grid st c ∨ c ∈ moves_made st →
  (∀ s x, s ∈ heap st → x ∈ cells s → in_grid st x) →
  (∀ x, x ∈ safes st → in_grid st x ∨ x ∈ moves_made st) →
  mark_safe c st = Ok st' → on_board st'.
Proof.
  intros Hwf Hc Hh Hs H.
  rewrite mark_safe_spec in H by done. injection H as <-.
  split.
  - apply (updated_on_board _ (set_safes _ st) (mark_safe_shrinks c)). done.
  - unfold updated, set_safes, in_grid in *.
    cbn [safes moves_made height width] in *.
    intros x [->%elem_of_singleton|?]%elem_of_union; auto.
Qed.

Lemma mark_step_on_board st st' : on_board st → mark_step st st' → on_board st'.
Proof.
  intros Hb [l s c st1 Hwf Hl Hs _ Hc H | l s c st1 Hwf Hl Hs _ Hc H].
  - by eapply mark_mine_on_board.
  - destruct Hb as [Hh Hsf].
    eapply mark_safe_on_board; [done | | done | done | done].
    left. apply (Hh s); [by eapply list_elem_of_lookup_2 | done].
Qed.

Lemma resolve_step_on_board st st' :
  on_board st → resolve_step st st' → on_board st'.
Proof.
  intros [Hh Hsf] [l1 l2 s1 s2 Hwf H1 H2 Hs1 Hs2 Hne He1 He2 Hsub].
  split; [|done].
  unfold store, set_heap. cbn [heap]. intros s x [l Hl]%list_elem_of_lookup Hx.
  destruct (decide (l = l2)) as [->|Hll].
  - rewrite list_lookup_insert_eq in Hl by (by eapply lookup_lt_Some).
    injection Hl as <-. cbn [cells] in Hx.
    apply (Hh s2); [by eapply list_elem_of_lookup_2 | set_solver].
  - rewrite list_lookup_insert_ne in Hl by done.
    apply (Hh s); [by eapply list_elem_of_lookup_2 | done].
Qed.

Lemma engine_steps_on_board st st' :
  on_board st → rtc engine_step st st' → on_board st'.
Proof.
  intros Hb. induction 1 as [|st1 st2 st3 H12 _ IH]; [done|].
  apply IH. destruct H12;
    [by eapply resolve_step_on_board | by eapply mark_step_on_board].
Qed.

Lemma told_steps_on_board (P Q : cell → Prop) st st' :
  (∀ c, Q c → in_grid st c ∨ c ∈ moves_made st) →
  on_board st → rtc (told_step P Q) st st' → on_board st'.
Proof.
  intros HQ Hb Hsteps. induction Hsteps as [|st1 st2 st3 H12 _ IH]; [done|].
  pose proof (told_step_frame _ _ _ _ H12) as [Hh Hw Hmv _ _].
  assert (∀ c, in_grid st2 c ↔ in_grid st1 c) as Hg
    by (intros c; unfold in_grid; by rewrite Hh, Hw).
  apply IH.
  - intros c Hc. rewrite Hg, Hmv. by apply HQ.
  - destruct H12 as [c st' Hwf Hc H|c st' Hwf Hc H].
    + by eapply mark_mine_on_board.
    + destruct Hb. eapply mark_safe_on_board; [done | by apply HQ | done..].
Qed.

Lemma add_knowledge_on_board c n st st' :
  wf st → on_board st → add_knowledge c n st = Ok st' → on_board st'.
Proof.
  intros Hwf [Hh Hsf] Hrun.
  destruct (add_knowledge_run c n st Hwf) as (st1 & st2 & st'' & Hrun' & H1 & H2 & H3).
  rewrite Hrun in Hrun'. injection Hrun' as <-.
  assert (wf (set_moves_made (λ m, {[c]} ∪ m) st)) as Hwf0 by done.
  assert (on_board st1) as Hb1.
  { eapply mark_safe_on_board; [exact Hwf0 | | | | exact H1].
    - right. unfold set_moves_made. cbn [moves_made]. set_solver.
    - done.
    - unfold set_moves_made. cbn [moves_made safes]. intros x Hx.
      destruct (Hsf x Hx); [by left | right; set_solver]. }
  rewrite new_sentence_spec in H2, H3. cbn [fst snd] in *.
  set (s := mkSentence _ _) in *.
  assert (∀ x, x ∈ cells s → in_grid st1 x) as Hs.
  { unfold s. cbn [cells]. intros x [Hx _]%elem_of_difference.
    by apply neighbors_in_bounds in Hx. }
  assert (on_board st2) as Hb2.
  { eapply told_steps_on_board; [| exact Hb1 | exact H2].
    intros x [->|[Hx _]]; [|by auto].
    right. apply mark_safe_frame in H1 as ([_ _ -> _ _] & _); [|done].
    unfold set_moves_made. cbn [moves_made]. set_solver. }
  eapply engine_steps_on_board; [|exact H3].
  destruct Hb2 as [Hh2 Hsf2]. split; [|done].
  unfold appended, set_knowledge, set_heap. cbn [heap].
  pose proof (told_steps_frame _ _ _ _ H2) as [Hht Hwt _ _ _].
  intros s' x [Hs'| ->%list_elem_of_singleton]%elem_of_app Hx.
  - by apply (Hh2 s').
  - apply Hs in Hx. unfold in_grid in *. cbn [height width].
    by rewrite Hht, Hwt.
Qed.

Lemma observed_reachable st : observed st → reachable st.
Proof.
  induction 1; [apply reach_init | by eapply reach_add
                | by apply reach_safe_move | by apply reach_random_move].
Qed.

(** In such a state every safe cell is on the board or was moved on. *)
Lemma observed_on_board st : observed st → on_board st.
Proof.
  induction 1 as [h w|c n st st' Hst IH H|pick st _ IH|rnd st _ IH].
  - split; unfold init; simpl.
    + intros s x Hs. by apply elem_of_nil in Hs.
    + intros x Hx. by apply not_elem_of_empty in Hx.
  - eapply add_knowledge_on_board; [|done..].
    by apply reachable_wf, observed_reachable.
  - by rewrite make_safe_move_state.
  - by rewrite make_random_move_state.
Qed.

(** * Main results *)

(** C1 (the code departs from the claim).  On a 1x3 board with a mine at
    (0,1), [add_knowledge((0,0), 1)] makes (0,1) a known mine.  The sentence
    that [add_knowledge((0,2), 1)] then builds still holds (0,1), and its
    count is still 1: the test looks into [moves_made] only, so a neighbour
    that is a known mine or known safe and was not moved on is kept, and the
    count is not lowered for it.  Likewise on a 3x3 board without mines:
    after [add_knowledge((1,1), 0)] all cells are known safe, and the
    sentence that [add_knowledge((0,0), 0)] builds holds (0,1) and (1,0). *)
Theorem new_sentence_keeps_known_mine :
  (add_knowledge (0,0) 1 (init 1 3) = Ok mine_in_the_middle
   ∧ (0,1) ∈ mines mine_in_the_middle
   ∧ ∃ st1,
       mark_safe (0,2) (set_moves_made (λ m, {[(0,2)]} ∪ m) mine_in_the_middle)
       = Ok st1
       ∧ new_sentence st1 (neighbors (height st1) (width st1) (0,2)) 1
         = ({[(0,1)]}, 1))
  ∧ (add_knowledge (1,1) 0 (init 3 3) = Ok all_safe
     ∧ (0,1) ∈ safes all_safe ∧ (1,0) ∈ safes all_safe
     ∧ ∃ st1,
         mark_safe (0,0) (set_moves_made (λ m, {[(0,0)]} ∪ m) all_safe)
         = Ok st1
         ∧ new_sentence st1 (neighbors (height st1) (width st1) (0,0)) 0
           = ({[(0,1); (1,0)]}, 0)).
Proof.
  split.
  - split; [vm_compute; reflexivity|]. split; [compute_done|].
    exists (mkAI 1 3 {[(0,0); (0,2)]} {[(0,1)]} {[(0,0); (0,2)]}
              [mkSentence ∅ 0] []).
    split; vm_compute; reflexivity.
  - split; [vm_compute; reflexivity|]. split; [compute_done|].
    split; [compute_done|].
    exists (mkAI 3 3 {[(0,0); (1,1)]} ∅ (safes all_safe) [mkSentence ∅ 0] []).
    split; vm_compute; reflexivity.
Qed.

(** C2, as the code has it.  In a run whose arguments agree with a
    placement of the mines, every sentence of the knowledge list has a
    count between 0 and its number of cells; and when [mark_mine] or
    [mark_safe] returns, every sentence of the knowledge list has cells. *)
Theorem sentences_within_bounds (st : AI) :
  reachable st →
  (∀ M l s, agrees M st → l ∈ knowledge st → heap st !! l = Some s →
     0 ≤ count s ≤ len (cells s))
  ∧ (∀ c st' l s, mark_mine c st = Ok st' ∨ mark_safe c st = Ok st' →
       l ∈ knowledge st' → heap st' !! l = Some s → cells s ≠ ∅).
Proof.
  intros Hwf%reachable_wf. split.
  - intros M l s Hsound%agrees_sound _ Hs.
    apply (true_of_bounds M), (sound_heap M st Hsound).
    by eapply list_elem_of_lookup_2.
  - intros c st' l s [H|H] Hl Hs.
    + rewrite mark_mine_spec in H by done. injection H as <-.
      by eapply updated_nonempty.
    + rewrite mark_safe_spec in H by done. injection H as <-.
      by eapply updated_nonempty.
Qed.

Lemma sentences_within_bounds_witness :
  0 ≤ count (mkSentence {[(0,0); (0,2)]} 1)
    ≤ len (cells (mkSentence {[(0,0); (0,2)]} 1))
  ∧ cells (mkSentence {[(0,0)]} 1) ≠ ∅.
Proof.
  pose proof (sentences_within_bounds mine_at_the_left
                (agrees_reachable _ _ mine_at_the_left_agrees)) as [H1 H2].
  split.
  - apply (H1 {[(0,0)]} 0%nat _ mine_at_the_left_agrees);
      [compute_done | reflexivity].
  - apply (H2 (0,2)
             (mkAI 1 3 {[(0,1)]} ∅ {[(0,1); (0,2)]} [mkSentence {[(0,0)]} 1] [0%nat])
             0%nat);
      [right; vm_compute; reflexivity | compute_done | reflexivity].
Defined.

(** C2, as the claim states it, fails: on a 1x1 board
    [add_knowledge((0,0), 1)] leaves the sentence [{} = 1] in the knowledge
    list. *)
Lemma add_knowledge_count_above_cells :
  ∃ st' l s,
    add_knowledge (0,0) 1 (init 1 1) = Ok st'
    ∧ l ∈ knowledge st' ∧ heap st' !! l = Some s
    ∧ ¬ (0 ≤ count s ≤ len (cells s) ∧ cells s ≠ ∅).
Proof.
  exists (mkAI 1 1 {[(0,0)]} ∅ {[(0,0)]} [mkSentence ∅ 1] [0%nat]),
         0%nat, (mkSentence ∅ 1).
  split_and!; [vm_compute; reflexivity | compute_done | done |].
  intros [_ H]. done.
Qed.

(** C3, as the code has it.  After every public operation the moves made
    are among the safe cells; and in a run whose arguments agree with a
    placement of the mines no cell is both a safe cell and a mine. *)
Theorem known_sets_invariants (st : AI) :
  reachable st →
  moves_made st ⊆ safes st ∧ ∀ M, agrees M st → safes st ## mines st.
Proof.
  intros Hst. split; [by apply reachable_moves_safe|].
  intros M [_ Hm Hs _]%agrees_sound. set_solver.
Qed.

Lemma known_sets_invariants_witness :
  moves_made mine_in_the_middle ⊆ safes mine_in_the_middle
  ∧ safes mine_in_the_middle ## mines mine_in_the_middle.
Proof.
  pose proof (known_sets_invariants mine_in_the_middle
                (agrees_reachable _ _ mine_in_the_middle_agrees)) as [H1 H2].
  split; [exact H1 | exact (H2 _ mine_in_the_middle_agrees)].
Defined.

(** C3, as the claim states it, fails: an observation on a cell that is
    a known mine, and [mark_mine] on a cell that is known to be safe, leave
    the cell in both sets. *)
Lemma safe_and_mine_at_once :
  (∃ st st', add_knowledge (0,0) 1 (init 1 2) = Ok st
             ∧ add_knowledge (0,1) 0 st = Ok st'
             ∧ ¬ (safes st' ## mines st'))
  ∧ (reachable mine_at_the_left
     ∧ ∃ st', mark_mine (0,1) mine_at_the_left = Ok st'
              ∧ ¬ (safes st' ## mines st')).
Proof.
  split.
  - exists (mkAI 1 2 {[(0,0)]} {[(0,1)]} {[(0,0)]} [mkSentence ∅ 0] []),
           (mkAI 1 2 {[(0,0); (0,1)]} {[(0,1)]} {[(0,0); (0,1)]}
              [mkSentence ∅ 0; mkSentence ∅ 0] [1%nat]).
    split_and!; [vm_compute; reflexivity.. |]. cbn [safes mines]. set_solver.
  - split; [exact (agrees_reachable _ _ mine_at_the_left_agrees)|].
    exists (mkAI 1 3 {[(0,1)]} {[(0,1)]} {[(0,1)]}
              [mkSentence {[(0,0); (0,2)]} 1] [0%nat]).
    split; [vm_compute; reflexivity|]. cbn [safes mines]. set_solver.
Qed.

(** C4 (the code departs from the claim).  [known_safes] compares the set
    of cells with the integer 0, which is never equal: it returns the
    absent result for every sentence, also when the count is 0. *)
Theorem known_safes_always_absent (s : Sentence) :
  Sentence.known_safes s = None.
Proof. reflexivity. Qed.

(** C5, as the code has it.  In scenario 2, [mark_mine((0,0))] turns the
    sentence into [{(0,1)} = 0] and leaves the safe cells as they were;
    the resolution pass [mark_mines_safes] that follows makes [(0,1)] a
    safe cell, which empties the sentence and removes it from the
    knowledge list. *)
Theorem hazard_then_resolution :
  mark_mine (0,0) scenario2
  = Ok (mkAI 1 2 ∅ {[(0,0)]} ∅ [mkSentence {[(0,1)]} 0] [0%nat])
  ∧ mark_mines_safes (mkAI 1 2 ∅ {[(0,0)]} ∅ [mkSentence {[(0,1)]} 0] [0%nat])
    = Ok (mkAI 1 2 ∅ {[(0,0)]} {[(0,1)]} [mkSentence ∅ 0] []).
Proof. split; vm_compute; reflexivity. Qed.

(** C5, as the claim states it, fails: after [mark_mine((0,0))] the cell
    [(0,1)] is not yet known to be safe, and after the resolution pass the
    sentence [{(0,1)} = 0] is no longer in the knowledge list. *)
Lemma scenario2_not_as_expected :
  ∃ st1 st2,
    mark_mine (0,0) scenario2 = Ok st1
    ∧ mark_mines_safes st1 = Ok st2
    ∧ ¬ scenario2_expected st1 ∧ ¬ scenario2_expected st2.
Proof.
  exists (mkAI 1 2 ∅ {[(0,0)]} ∅ [mkSentence {[(0,1)]} 0] [0%nat]),
         (mkAI 1 2 ∅ {[(0,0)]} {[(0,1)]} [mkSentence ∅ 0] []).
  split_and!; [vm_compute; reflexivity.. | |].
  - intros [_ H]. cbn [safes] in H. by apply not_elem_of_empty in H.
  - intros [(l & Hl & _) _]. cbn [knowledge] in Hl. by apply elem_of_nil in Hl.
Qed.



(** C7, as the code has it.  [add_knowledge] checks neither the cell nor
    the count: on every well-formed state, for every cell and every
    integer count, it returns normally, with the cell among the moves made
    and among the safe cells. *)
Theorem add_knowledge_accepts_everything (c : cell) (n : Z) (st : AI) :
  wf st →
  ∃ st', add_knowledge c n st = Ok st' ∧ c ∈ moves_made st' ∧ c ∈ safes st'.
Proof.
  intros Hwf.
  destruct (add_knowledge_run c n st Hwf) as (st1 & st2 & st' & Hrun & _).
  exists st'. split; [done|].
  apply add_knowledge_frame in Hrun as (_ & _ & Hmv & Hs & _); [|done].
  set_solver.
Qed.

Lemma add_knowledge_accepts_everything_witness :
  ∃ st', add_knowledge (7, -2) (-3) mine_at_the_left = Ok st'
    ∧ (7, -2) ∈ moves_made st' ∧ (7, -2) ∈ safes st'.
Proof.
  apply (add_knowledge_accepts_everything (7, -2) (-3) mine_at_the_left).
  compute_done.
Defined.

(** C7, as the claim states it, fails: a cell outside the board with a
    negative count, a count larger than the number of neighbours, and a
    cell that was already moved on are all processed. *)
Lemma add_knowledge_rejects_nothing :
  (∃ st', add_knowledge (7, -2) (-3) (init 1 3) = Ok st'
          ∧ (7, -2) ∈ moves_made st')
  ∧ (∃ st', add_knowledge (0, 0) 9 (init 1 3) = Ok st'
            ∧ (0, 0) ∈ moves_made st')
  ∧ (∃ st', (0, 1) ∈ moves_made mine_at_the_left
            ∧ add_knowledge (0, 1) 1 mine_at_the_left = Ok st').
Proof.
  split_and!.
  - eexists. split; [vm_compute; reflexivity | compute_done].
  - eexists. split; [vm_compute; reflexivity | compute_done].
  - eexists. split; [compute_done | vm_compute; reflexivity].
Qed.

(** C8.  [make_safe_move] returns a cell of [safes - moves_made] when
    there is one and the absent result otherwise.  [make_random_move]
    returns only cells of the board that are neither moved on nor known
    mines, and the absent result exactly when every cell of the board is
    moved on or a known mine.  When all cells of the board are moved on,
    [make_random_move] returns the absent result in every state;
    [make_safe_move] does so when every known safe cell is a cell of the
    board or moved on, and hence in every state reached by observations
    and move selections. *)
Theorem selectors_spec (pick rnd : nat) (st : AI) :
  (safes st ∖ moves_made st ≠ ∅ →
     ∃ c, (make_safe_move pick st).1 = Some c ∧ c ∈ safes st ∖ moves_made st)
  ∧ (safes st ∖ moves_made st = ∅ → (make_safe_move pick st).1 = None)
  ∧ (∀ c, (make_random_move rnd st).1 = Some c →
       in_grid st c ∧ (c ∉ moves_made st) ∧ (c ∉ mines st))
  ∧ ((make_random_move rnd st).1 = None
     ↔ ∀ c, in_grid st c → c ∈ moves_made st ∪ mines st)
  ∧ ((∀ c, c ∈ safes st → in_grid st c ∨ c ∈ moves_made st) →
     (∀ c, in_grid st c → c ∈ moves_made st) →
     (make_safe_move pick st).1 = None ∧ (make_random_move rnd st).1 = None)
  ∧ (observed st →
     (∀ c, in_grid st c → c ∈ moves_made st) →
     (make_safe_move pick st).1 = None ∧ (make_random_move rnd st).1 = None)
  ∧ ((∀ c, in_grid st c → c ∈ moves_made st) →
     (make_random_move rnd st).1 = None).
Proof.
  assert (Hsafe : safes st ∖ moves_made st = ∅ → (make_safe_move pick st).1 = None).
  { intros He. unfold make_safe_move. by rewrite bool_decide_eq_true_2. }
  assert (Hrandom : (make_random_move rnd st).1 = None
                    ↔ ∀ c, in_grid st c → c ∈ moves_made st ∪ mines st).
  { unfold make_random_move. set (cells := foldl _ _ _).
    assert (∀ x, x ∈ cells ↔ in_grid st x ∧ (x ∉ moves_made st) ∧ (x ∉ mines st))
      as Hcells by apply elem_of_candidates.
    case_bool_decide as Hne; cbn [fst].
    - destruct (lookup_mod cells rnd Hne) as [x Hx]. rewrite Hx. split; [done|].
      intros Hall. apply list_elem_of_lookup_2, Hcells in Hx as (Hg & ? & ?).
      specialize (Hall x Hg). set_solver.
    - split; [|done]. intros _ c Hg.
      destruct (decide (c ∈ moves_made st ∪ mines st)) as [|Hc]; [done|].
      exfalso.
      assert (c ∈ cells) as Hin by (apply Hcells; set_solver).
      rewrite Hne in Hin. by apply elem_of_nil in Hin. }
  assert (Hall_moved :
    (∀ c, c ∈ safes st → in_grid st c ∨ c ∈ moves_made st) →
    (∀ c, in_grid st c → c ∈ moves_made st) →
    (make_safe_move pick st).1 = None ∧ (make_random_move rnd st).1 = None).
  { intros Hcells Hall. split.
    + apply Hsafe. apply set_eq. intros c. split; [|set_solver].
      intros [Hs Hm]%elem_of_difference. exfalso.
      destruct (Hcells c Hs); auto.
    + apply Hrandom. intros c Hc. specialize (Hall c Hc). set_solver. }
  split_and!.
  - intros Hne. unfold make_safe_move.
    rewrite bool_decide_eq_false_2 by done. cbn [fst].
    assert (elements (safes st ∖ moves_made st) ≠ []) as Hel.
    { intros He. apply elements_empty_inv in He. by apply leibniz_equiv in He. }
    destruct (lookup_mod _ pick Hel) as [c Hc].
    exists c. split; [exact Hc|].
    apply elem_of_elements. by eapply list_elem_of_lookup_2.
  - exact Hsafe.
  - intros c. unfold make_random_move. set (cells := foldl _ _ _).
    case_bool_decide; cbn [fst]; [|done].
    intros Hc%list_elem_of_lookup_2. by apply elem_of_candidates in Hc.
  - exact Hrandom.
  - exact Hall_moved.
  - intros [_ Hcells]%observed_on_board. by apply Hall_moved.
  - intros Hall. apply Hrandom. intros c Hc. specialize (Hall c Hc). set_solver.
Qed.

Lemma selectors_spec_witness :
  (make_safe_move 0 all_moved).1 = None
  ∧ (make_random_move 0 all_moved).1 = None.
Proof.
  apply (proj1 (proj2 (proj2 (proj2 (proj2 (selectors_spec 0 0 all_moved)))))).
  - intros c Hc. right. exact Hc.
  - intros [r c] [Hr Hc]. cbn in Hr, Hc.
    assert (r = 0) as -> by lia. assert (c = 0) as -> by lia.
    compute_done.
Defined.

(** C8, as the claim states it, fails: when [mark_safe] was given a cell
    off the board, the cell is still returned by [make_safe_move] after
    every cell of the board was moved on. *)
Lemma safe_move_off_the_board :
  ∃ st1 st, mark_safe (5,5) (init 1 1) = Ok st1
    ∧ add_knowledge (0,0) 0 st1 = Ok st
    ∧ reachable st
    ∧ (∀ c, in_grid st c → c ∈ moves_made st)
    ∧ (∀ pick, (make_safe_move pick st).1 = Some (5,5))
    ∧ (∀ rnd, (make_random_move rnd st).1 = None).
Proof.
  exists (mkAI 1 1 ∅ ∅ {[(5,5)]} [] []),
         (mkAI 1 1 {[(0,0)]} ∅ {[(0,0); (5,5)]} [mkSentence ∅ 0] [0%nat]).
  assert (mark_safe (5,5) (init 1 1) = Ok (mkAI 1 1 ∅ ∅ {[(5,5)]} [] [])) as H1
    by (vm_compute; reflexivity).
  assert (add_knowledge (0,0) 0 (mkAI 1 1 ∅ ∅ {[(5,5)]} [] [])
          = Ok (mkAI 1 1 {[(0,0)]} ∅ {[(0,0); (5,5)]} [mkSentence ∅ 0] [0%nat]))
    as H2 by (vm_compute; reflexivity).
  split_and!; [exact H1 | exact H2 | | | |].
  - eapply reach_add; [|exact H2]. eapply reach_safe; [|exact H1].
    apply reach_init.
  - intros [r c] [Hr Hc]. cbn in Hr, Hc.
    assert (r = 0) as -> by lia. assert (c = 0) as -> by lia.
    cbn [moves_made]. set_solver.
  - intros pick. unfold make_safe_move. cbn [safes moves_made].
    assert (({[(0,0); (5,5)]} : gset cell) ∖ {[(0,0)]} = {[(5,5)]}) as ->
      by (apply set_eq; intros x; rewrite elem_of_difference, elem_of_union,
            !elem_of_singleton; split; [intros [[->| ->] ?]; done
                                       | intros ->; split; [by right | done]]).
    rewrite bool_decide_eq_false_2 by (apply non_empty_singleton_L).
    by rewrite size_singleton, Nat.mod_1_r, elements_singleton.
  - intros rnd. vm_compute. reflexivity.
Qed.

(** C9.  On every well-formed state the loop of [draw_interferences]
    terminates: it returns a state, the same for every bound on the
    iterations above the number of cell memberships, and one iteration
    either lowers that number or changes nothing and is the last. *)
Theorem draw_interferences_terminates (st : AI) :
  wf st →
  (∃ st', draw_interferences st = Ok st'
     ∧ ∀ fuel, (kb_size st < fuel)%nat → draw_loop fuel st = Ok st')
  ∧ (∃ st' drawn, pass st = Ok (st', drawn)
       ∧ ((kb_size st' < kb_size st)%nat ∨ (st' = st ∧ drawn = false))).
Proof.
  intros Hwf. split.
  - destruct (draw_interferences_steps st Hwf) as (st' & Hrun & _ & Hfuel).
    by exists st'.
  - destruct (pass_steps st Hwf) as (st' & drawn & Hp & Hsteps).
    exists st', drawn. split; [done|]. destruct drawn.
    + left. by apply engine_steps_size_tc.
    + assert (rtc engine_step st st') as Hsteps'
        by (eapply rtc_subrel; [|done]; intros ???; by right).
      apply engine_steps_size in Hsteps' as [->|?]; auto.
Qed.

Lemma draw_interferences_terminates_witness :
  (∃ st', draw_interferences scenario3 = Ok st'
     ∧ ∀ fuel, (kb_size scenario3 < fuel)%nat → draw_loop fuel scenario3 = Ok st')
  ∧ (∃ st' drawn, pass scenario3 = Ok (st', drawn)
       ∧ ((kb_size st' < kb_size scenario3)%nat ∨ (st' = scenario3 ∧ drawn = false))).
Proof.
  apply (draw_interferences_terminates scenario3).
  compute_done.
Defined.

(** C10.  [make_safe_move] and [make_random_move] leave the state of the
    engine as it was: the board, the three sets, the knowledge list and
    every sentence. *)
Theorem selectors_keep_state (pick rnd : nat) (st : AI) :
  (make_safe_move pick st).2 = st ∧ (make_random_move rnd st).2 = st.
Proof.
  split; [apply make_safe_move_state | apply make_random_move_state].
Qed.

(** * Further properties *)

(** ** Marking cells *)

Lemma updated_marked_by upd st : marked_by upd st (updated upd st).
Proof.
  split.
  - unfold updated. cbn [heap]. apply heap_map_length.
  - intros l s Hl Hs. by apply updated_lookup_in.
  - intros l Hl. unfold updated. cbn [heap]. rewrite heap_map_lookup.
    destruct (heap st !! l) as [s|]; [simpl | done].
    by rewrite bool_decide_eq_false_2.
  - done.
Qed.

(** X1.  On a well-formed state [mark_mine] and [mark_safe] return
    normally: [list.remove] always finds the sentence it is given.  The
    cell joins [mines] (or [safes]), the other two sets stay, every
    sentence of the knowledge list is updated in place, and exactly the
    sentences left without cells leave the list. *)
Theorem marks_effect (c : cell) (st : AI) :
  wf st →
  (∃ st', mark_mine c st = Ok st' ∧ wf st'
     ∧ mines st' = {[c]} ∪ mines st ∧ safes st' = safes st
     ∧ moves_made st' = moves_made st
     ∧ marked_by (Sentence.mark_mine c) st st')
  ∧ (∃ st', mark_safe c st = Ok st' ∧ wf st'
       ∧ safes st' = {[c]} ∪ safes st ∧ mines st' = mines st
       ∧ moves_made st' = moves_made st
       ∧ marked_by (Sentence.mark_safe c) st st').
Proof.
  intros Hwf. split.
  - rewrite mark_mine_spec by done. eexists. split; [done|].
    split_and!; [by apply updated_wf | done.. |].
    by destruct (updated_marked_by (Sentence.mark_mine c)
                   (set_mines (λ m, {[c]} ∪ m) st)).
  - rewrite mark_safe_spec by done. eexists. split; [done|].
    split_and!; [by apply updated_wf | done.. |].
    by destruct (updated_marked_by (Sentence.mark_safe c)
                   (set_safes (λ m, {[c]} ∪ m) st)).
Qed.

Lemma marks_effect_witness :
  (∃ st', mark_mine (0,0) scenario3 = Ok st' ∧ wf st'
     ∧ mines st' = {[(0,0)]} ∪ mines scenario3 ∧ safes st' = safes scenario3
     ∧ moves_made st' = moves_made scenario3
     ∧ marked_by (Sentence.mark_mine (0,0)) scenario3 st')
  ∧ (∃ st', mark_safe (0,0) scenario3 = Ok st' ∧ wf st'
       ∧ safes st' = {[(0,0)]} ∪ safes scenario3 ∧ mines st' = mines scenario3
       ∧ moves_made st' = moves_made scenario3
       ∧ marked_by (Sentence.mark_safe (0,0)) scenario3 st').
Proof. apply (marks_effect (0,0) scenario3). compute_done. Defined.

Lemma mark_mine_keeps_empty c s : cells s = ∅ → Sentence.mark_mine c s = s.
Proof.
  intros He. unfold Sentence.mark_mine.
  rewrite bool_decide_eq_false_2; [done | set_solver].
Qed.

Lemma mark_safe_keeps_empty c s : cells s = ∅ → Sentence.mark_safe c s = s.
Proof.
  intros He. unfold Sentence.mark_safe.
  rewrite bool_decide_eq_false_2; [done | set_solver].
Qed.

(** X2.  Marking a cell a second time changes nothing: [mark_mine] and
    [mark_safe] are idempotent. *)
Theorem marks_idempotent (c : cell) (st st' : AI) :
  wf st →
  (mark_mine c st = Ok st' → mark_mine c st' = Ok st')
  ∧ (mark_safe c st = Ok st' → mark_safe c st' = Ok st').
Proof.
  intros Hwf. split; intros H.
  - rewrite mark_mine_spec in H by done. injection H as <-.
    rewrite mark_mine_spec by by apply updated_wf. f_equal.
    change (set_mines (λ m, {[c]} ∪ m)
              (updated (Sentence.mark_mine c) (set_mines (λ m, {[c]} ∪ m) st)))
      with (updated (Sentence.mark_mine c)
              (set_mines (λ m, {[c]} ∪ m) (set_mines (λ m, {[c]} ∪ m) st))).
    rewrite set_mines_twice, updated_compose by apply mark_mine_keeps_empty.
    apply updated_ext, mark_mine_idemp.
  - rewrite mark_safe_spec in H by done. injection H as <-.
    rewrite mark_safe_spec by by apply updated_wf. f_equal.
    change (set_safes (λ m, {[c]} ∪ m)
              (updated (Sentence.mark_safe c) (set_safes (λ m, {[c]} ∪ m) st)))
      with (updated (Sentence.mark_safe c)
              (set_safes (λ m, {[c]} ∪ m) (set_safes (λ m, {[c]} ∪ m) st))).
    rewrite set_safes_twice, updated_compose by apply mark_safe_keeps_empty.
    apply updated_ext, mark_safe_idemp.
Qed.

Lemma marks_idempotent_witness :
  mark_mine (0,0) (mkAI 1 3 ∅ {[(0,0)]} ∅
                     [mkSentence ∅ 0; mkSentence {[(0,1); (0,2)]} 1] [1%nat])
  = Ok (mkAI 1 3 ∅ {[(0,0)]} ∅
          [mkSentence ∅ 0; mkSentence {[(0,1); (0,2)]} 1] [1%nat]).
Proof.
  apply (proj1 (marks_idempotent (0,0) scenario3 _ ltac:(compute_done))).
  vm_compute. reflexivity.
Defined.

Lemma mark_mine_safe_commute a b s :
  a ≠ b →
  Sentence.mark_safe b (Sentence.mark_mine a s)
  = Sentence.mark_mine a (Sentence.mark_safe b s).
Proof.
  intros Hab. unfold Sentence.mark_safe, Sentence.mark_mine.
  destruct (decide (a ∈ cells s)) as [Ha|Ha], (decide (b ∈ cells s)) as [Hb|Hb].
  - rewrite (bool_decide_eq_true_2 (a ∈ cells s)), (bool_decide_eq_true_2 (b ∈ cells s)) by done.
    cbn [cells count].
    rewrite !bool_decide_eq_true_2 by set_solver. cbn [cells count].
    f_equal. set_solver.
  - rewrite (bool_decide_eq_true_2 (a ∈ cells s)), (bool_decide_eq_false_2 (b ∈ cells s)) by done.
    cbn [cells count].
    rewrite bool_decide_eq_false_2 by set_solver.
    by rewrite bool_decide_eq_true_2.
  - rewrite (bool_decide_eq_false_2 (a ∈ cells s)), (bool_decide_eq_true_2 (b ∈ cells s)) by done.
    cbn [cells count].
    by rewrite bool_decide_eq_false_2 by set_solver.
  - rewrite (bool_decide_eq_false_2 (a ∈ cells s)), (bool_decide_eq_false_2 (b ∈ cells s)) by done.
    by rewrite (bool_decide_eq_false_2 (a ∈ cells s)).
Qed.

(** X3.  The order in which cells are marked does not matter: the loops
    [for cell in cells: self.mark_mine(cell)] and
    [for cell in cells: self.mark_safe(cell)] give the same state for
    every order in which the set is visited, and marking one cell as a
    mine and another one as safe gives the same state either way round. *)
Theorem marks_in_any_order (st : AI) :
  wf st →
  (∀ cs cs', NoDup cs → cs ≡ₚ cs' →
     for_each mark_mine cs st = for_each mark_mine cs' st)
  ∧ (∀ cs cs', cs ≡ₚ cs' →
       for_each mark_safe cs st = for_each mark_safe cs' st)
  ∧ (∀ a b, a ≠ b →
       mark_mine a st ≫= mark_safe b = mark_safe b st ≫= mark_mine a).
Proof.
  intros Hwf. split_and!.
  - intros cs cs'. by apply mark_mines_any_order.
  - intros cs cs'. by apply mark_safes_any_order.
  - intros a b Hab.
    rewrite mark_mine_spec, mark_safe_spec by done. cbn [mbind outcome_bind].
    rewrite mark_mine_spec, mark_safe_spec by by apply updated_wf. f_equal.
    change (set_safes (λ m, {[b]} ∪ m)
              (updated (Sentence.mark_mine a) (set_mines (λ m, {[a]} ∪ m) st)))
      with (updated (Sentence.mark_mine a)
              (set_safes (λ m, {[b]} ∪ m) (set_mines (λ m, {[a]} ∪ m) st))).
    change (set_mines (λ m, {[a]} ∪ m)
              (updated (Sentence.mark_safe b) (set_safes (λ m, {[b]} ∪ m) st)))
      with (updated (Sentence.mark_safe b)
              (set_safes (λ m, {[b]} ∪ m) (set_mines (λ m, {[a]} ∪ m) st))).
    rewrite !updated_compose
      by first [apply mark_mine_keeps_empty | apply mark_safe_keeps_empty].
    apply updated_ext. intros s. by apply mark_mine_safe_commute.
Qed.

Lemma marks_in_any_order_witness :
  for_each mark_mine [(0,0); (0,1)] scenario3
  = for_each mark_mine [(0,1); (0,0)] scenario3.
Proof.
  apply (proj1 (marks_in_any_order scenario3 ltac:(compute_done))).
  - compute_done.
  - apply perm_swap.
Defined.

(** ** Sound deductions *)

Lemma make_safe_move_elem pick st c :
  (make_safe_move pick st).1 = Some c → c ∈ safes st ∖ moves_made st.
Proof.
  unfold make_safe_move. case_bool_decide; cbn [fst]; [done|].
  intros Hc%list_elem_of_lookup_2. by apply elem_of_elements in Hc.
Qed.

(** X4.  In a run whose arguments agree with a placement [M] of the
    mines, what the engine knows is true of [M]: every known mine is a
    mine, no known safe cell is one, every sentence of the knowledge list
    counts the mines among its cells, and [make_safe_move] never returns a
    mine. *)
Theorem deductions_are_sound (M : gset cell) (st : AI) :
  agrees M st →
  mines st ⊆ M
  ∧ safes st ## M
  ∧ (∀ l s, l ∈ knowledge st → heap st !! l = Some s →
       count s = len (cells s ∩ M))
  ∧ (∀ pick c, (make_safe_move pick st).1 = Some c → c ∉ M).
Proof.
  intros [Hh Hm Hs _]%agrees_sound. split_and!; [done | done | |].
  - intros l s _ Hl. apply Hh. by eapply list_elem_of_lookup_2.
  - intros pick c Hc%make_safe_move_elem. set_solver.
Qed.

Lemma deductions_are_sound_witness :
  mines mine_in_the_middle ⊆ {[(0,1)]}
  ∧ safes mine_in_the_middle ## {[(0,1)]}
  ∧ (∀ l s, l ∈ knowledge mine_in_the_middle →
       heap mine_in_the_middle !! l = Some s →
       count s = len (cells s ∩ {[(0,1)]}))
  ∧ (∀ pick c, (make_safe_move pick mine_in_the_middle).1 = Some c →
       c ∉ ({[(0,1)]} : gset cell)).
Proof.
  exact (deductions_are_sound {[(0,1)]} mine_in_the_middle
           mine_in_the_middle_agrees).
Defined.

(** X5.  A sentence that is true of a placement stays true when one of
    its cells is marked for what it is, and [known_mines] answers
    correctly on it: it returns the cells of the sentence exactly when all
    of them are mines. *)
Theorem sentence_marks_sound (M : gset cell) (c : cell) (s : Sentence) :
  true_of M s →
  (c ∈ M → true_of M (Sentence.mark_mine c s))
  ∧ (c ∉ M → true_of M (Sentence.mark_safe c s))
  ∧ (Sentence.known_mines s = Some (cells s) ↔ cells s ⊆ M)
  ∧ (Sentence.known_mines s = None ↔ ¬ cells s ⊆ M).
Proof.
  intros Ht.
  assert (len (cells s) = count s ↔ cells s ⊆ M) as Hiff.
  { split; [by apply true_of_all_mines|].
    intros Hsub. unfold true_of in Ht. rewrite Ht. f_equal. set_solver. }
  split_and!.
  - intros Hc. by apply true_of_mark_mine.
  - intros Hc. by apply true_of_mark_safe.
  - unfold Sentence.known_mines. case_bool_decide; [tauto|].
    split; [done | tauto].
  - unfold Sentence.known_mines. case_bool_decide; [|tauto].
    split; [done | tauto].
Qed.

Lemma sentence_marks_sound_witness :
  true_of {[(0,0)]} (Sentence.mark_mine (0,0) (mkSentence {[(0,0); (0,2)]} 1)).
Proof.
  apply (sentence_marks_sound {[(0,0)]} (0,0) (mkSentence {[(0,0); (0,2)]} 1)).
  - vm_compute. reflexivity.
  - compute_done.
Defined.

(** X6.  Subset resolution is sound: when the sentences of the store are
    true of a placement, they still are after the body of the double loop
    of [draw_interferences] ran on a pair, and so the count of the
    sentence it rewrites stays between 0 and the number of its cells. *)
Theorem subset_resolution_sound (M : gset cell) (A B : loc) (st st' : AI)
    (drawn drawn' : bool) :
  (∀ s, s ∈ heap st → true_of M s) →
  resolve_pair A B (st, drawn) = Ok (st', drawn') →
  ∀ s, s ∈ heap st' → true_of M s ∧ 0 ≤ count s ≤ len (cells s).
Proof.
  intros Hh Hrun.
  assert (∀ s, s ∈ heap st' → true_of M s) as Hh';
    [|intros s Hs; split; [by apply Hh' | by apply (true_of_bounds M), Hh']].
  unfold resolve_pair in Hrun.
  destruct (deref A st) as [a|] eqn:Ha; [|done].
  destruct (deref B st) as [b|] eqn:Hb; [|done].
  cbn [mbind outcome_bind] in Hrun.
  unfold deref in Ha, Hb.
  destruct (heap st !! A) as [a'|] eqn:Ha'; [injection Ha as ->|done].
  destruct (heap st !! B) as [b'|] eqn:Hb'; [injection Hb as ->|done].
  destruct (Sentence.ne a b && negb (bool_decide (len (cells a) = 0))
            && negb (bool_decide (len (cells b) = 0)));
    [|by injection Hrun as <- <-].
  destruct (bool_decide (cells a ⊆ cells b)) eqn:Hsub;
    [|by injection Hrun as <- <-].
  apply bool_decide_eq_true in Hsub. injection Hrun as <- <-.
  unfold store, set_heap. cbn [heap]. intros s [l Hl]%list_elem_of_lookup.
  destruct (decide (l = B)) as [->|Hne].
  - rewrite list_lookup_insert_eq in Hl by (by eapply lookup_lt_Some).
    injection Hl as <-.
    apply true_of_resolve; [| |done]; apply Hh; by eapply list_elem_of_lookup_2.
  - rewrite list_lookup_insert_ne in Hl by done.
    apply Hh. by eapply list_elem_of_lookup_2.
Qed.

Lemma subset_resolution_sound_witness :
  ∃ st', resolve_pair 0 1 (scenario3, false) = Ok (st', true)
    ∧ Forall (λ s, true_of {[(0,0); (0,1)]} s ∧ 0 ≤ count s ≤ len (cells s))
        (heap st').
Proof.
  exists (store 1 (mkSentence {[(0,1); (0,2)]} 1) scenario3).
  split; [vm_compute; reflexivity|].
  apply Forall_forall.
  apply (subset_resolution_sound {[(0,0); (0,1)]} 0%nat 1%nat scenario3 _ false true).
  - apply Forall_forall. repeat constructor; vm_compute; reflexivity.
  - vm_compute. reflexivity.
Defined.

(** ** The new sentence *)

(** X7.  The sentence that [add_knowledge] builds: the test
    [neighbor not in (self.moves_made or self.mines or self.safes)] looks
    into the first of the three sets that is not empty.  In [add_knowledge]
    that is [moves_made]: the sentence holds the neighbours that were not
    moved on, and its count is the given one lowered by the number of
    neighbours that were moved on and are known mines. *)
Theorem new_sentence_closed (st : AI) (N : gset cell) (n : Z) :
  new_sentence st N n
  = (N ∖ py_or (py_or (moves_made st) (mines st)) (safes st),
     n - len (N ∩ py_or (py_or (moves_made st) (mines st)) (safes st)
                ∩ mines st))
  ∧ (moves_made st ≠ ∅ →
     new_sentence st N n
     = (N ∖ moves_made st, n - len (N ∩ moves_made st ∩ mines st))).
Proof.
  split; [apply new_sentence_spec|].
  intros Hne. rewrite new_sentence_spec. by rewrite excluded_moves.
Qed.

(** ** The neighbours of a cell *)

Section window.
Context (ok : cell → bool).

Lemma elem_of_row_add row cols : ∀ (acc : gset cell) x,
  x ∈ foldl (λ acc col,
         if ok (row, col) then {[(row, col)]} ∪ acc else acc) acc cols
  ↔ x ∈ acc ∨ (x.1 = row ∧ x.2 ∈ cols ∧ ok x = true).
Proof.
  induction cols as [|col cols IH]; intros acc x; cbn [foldl].
  - rewrite elem_of_nil. tauto.
  - rewrite IH, elem_of_cons. destruct x as [r c]. cbn [fst snd].
    destruct (ok (row, col)) eqn:E.
    + rewrite elem_of_union, elem_of_singleton. split.
      * intros [[[= -> ->]|?]|(-> & ? & ?)]; auto.
      * intros [?|(-> & [->|?] & ?)]; auto.
    + split.
      * intros [?|(-> & ? & ?)]; auto.
      * intros [?|(-> & [->|?] & ?)]; auto. congruence.
Qed.

Lemma elem_of_window_add rows cols : ∀ (acc : gset cell) x,
  x ∈ foldl (λ acc row,
         foldl (λ acc col,
             if ok (row, col) then {[(row, col)]} ∪ acc else acc)
           acc cols) acc rows
  ↔ x ∈ acc ∨ (x.1 ∈ rows ∧ x.2 ∈ cols ∧ ok x = true).
Proof.
  induction rows as [|row rows IH]; intros acc x; cbn [foldl].
  - rewrite elem_of_nil. tauto.
  - rewrite IH, elem_of_row_add, elem_of_cons. split.
    + intros [[?|(-> & ? & ?)]|(? & ? & ?)]; auto.
    + intros [?|([->|?] & ? & ?)]; auto.
Qed.

End window.

Lemma elem_of_neighbors h w c x :
  x ∈ neighbors h w c
  ↔ (0 ≤ x.1 < h ∧ 0 ≤ x.2 < w) ∧ x ≠ c
    ∧ c.1 - 1 ≤ x.1 ≤ c.1 + 1 ∧ c.2 - 1 ≤ x.2 ≤ c.2 + 1.
Proof.
  unfold neighbors. destruct c as [i j], x as [a b].
  pose proof (elem_of_window_add
    (λ '(row, col),
       bool_decide (0 ≤ row < h) && bool_decide (0 ≤ col < w)
       && negb (bool_decide ((row, col) = (i, j))))
    (range (i - 1) (i + 2)) (range (j - 1) (j + 2)) ∅ (a, b)) as H.
  cbv beta iota in H. rewrite H. clear H.
  rewrite elem_of_empty, !elem_of_range. cbn [fst snd].
  rewrite !andb_true_iff, negb_true_iff, !bool_decide_eq_true, bool_decide_eq_false.
  split.
  - intros [[]|(? & ? & ? & ?)]. split_and!; first [done | lia].
  - intros (? & ? & ? & ?). right. split_and!; first [done | lia].
Qed.

Lemma size_list_to_set_le (l : list cell) :
  (size (list_to_set l : gset cell) ≤ length l)%nat.
Proof.
  induction l as [|x l IH]; cbn [list_to_set length].
  - by rewrite size_empty.
  - rewrite size_union_alt, size_singleton.
    assert (size (list_to_set l ∖ {[x]} : gset cell) ≤ size (list_to_set l : gset cell))%nat
      by (apply subseteq_size; set_solver).
    lia.
Qed.

(** A cell has at most eight neighbours. *)
Lemma len_neighbors_le h w c : len (neighbors h w c) ≤ 8.
Proof.
  destruct c as [i j].
  assert (neighbors h w (i, j)
          ⊆ list_to_set [(i - 1, j - 1); (i - 1, j); (i - 1, j + 1);
                         (i, j - 1); (i, j + 1);
                         (i + 1, j - 1); (i + 1, j); (i + 1, j + 1)]) as Hsub.
  { intros [a b] (Hb & Hne & Ha & Hb')%elem_of_neighbors.
    cbn [fst snd] in *. apply elem_of_list_to_set.
    assert (a = i - 1 ∨ a = i ∨ a = i + 1) as [-> | [-> | ->]] by lia;
      assert (b = j - 1 ∨ b = j ∨ b = j + 1) as [-> | [-> | ->]] by lia;
      try done;
      repeat first [apply list_elem_of_here | apply list_elem_of_further]. }
  apply subseteq_size in Hsub.
  pose proof (size_list_to_set_le
                [(i - 1, j - 1); (i - 1, j); (i - 1, j + 1);
                 (i, j - 1); (i, j + 1);
                 (i + 1, j - 1); (i + 1, j); (i + 1, j + 1)]) as Hle.
  cbn [length] in Hle. unfold len. lia.
Qed.

(** X8.  The neighbours that [add_knowledge] collects are the cells of
    the board next to the cell, the cell itself left out; there are at
    most eight, and none when the cell is two or more steps off the
    board. *)
Theorem neighbors_spec (h w : Z) (c : cell) :
  (∀ x, x ∈ neighbors h w c
        ↔ (0 ≤ x.1 < h ∧ 0 ≤ x.2 < w) ∧ x ≠ c
          ∧ c.1 - 1 ≤ x.1 ≤ c.1 + 1 ∧ c.2 - 1 ≤ x.2 ≤ c.2 + 1)
  ∧ len (neighbors h w c) ≤ 8
  ∧ (c.1 < -1 ∨ h < c.1 ∨ c.2 < -1 ∨ w < c.2 → neighbors h w c = ∅).
Proof.
  split_and!.
  - apply elem_of_neighbors.
  - apply len_neighbors_le.
  - intros Hfar. apply set_eq. intros x. rewrite elem_of_neighbors.
    split; [|by intros ?%not_elem_of_empty]. lia.
Qed.

(** ** What an observation changes *)

Lemma shrinks_refl st : shrinks st st.
Proof. split; [done | done |]. intros l s Hs. by exists s. Qed.

Lemma shrinks_trans st1 st2 st3 :
  shrinks st1 st2 → shrinks st2 st3 → shrinks st1 st3.
Proof.
  intros [Hl1 Hk1 Hc1] [Hl2 Hk2 Hc2]. split.
  - congruence.
  - set_solver.
  - intros l s Hs. destruct (Hc1 l s Hs) as (s2 & Hs2 & Hsub2).
    destruct (Hc2 l s2 Hs2) as (s3 & Hs3 & Hsub3).
    exists s3. split; [done | set_solver].
Qed.

Lemma updated_shrinks upd st :
  (∀ s, cells (upd s) ⊆ cells s) → shrinks st (updated upd st).
Proof.
  intros Hupd. split.
  - apply updated_length.
  - intros l Hl. by apply updated_knowledge in Hl as [? _].
  - intros l s Hs. destruct (updated_lookup upd st l s Hs) as [H|H];
      eexists; (split; [exact H|]); [done | apply Hupd].
Qed.

Lemma mark_mine_shrinks_state c st st' :
  wf st → mark_mine c st = Ok st' → shrinks st st'.
Proof.
  intros Hwf H. rewrite mark_mine_spec in H by done. injection H as <-.
  by destruct (updated_shrinks (Sentence.mark_mine c)
                 (set_mines (λ m, {[c]} ∪ m) st) (mark_mine_shrinks c)).
Qed.

Lemma mark_safe_shrinks_state c st st' :
  wf st → mark_safe c st = Ok st' → shrinks st st'.
Proof.
  intros Hwf H. rewrite mark_safe_spec in H by done. injection H as <-.
  by destruct (updated_shrinks (Sentence.mark_safe c)
                 (set_safes (λ m, {[c]} ∪ m) st) (mark_safe_shrinks c)).
Qed.

Lemma engine_step_shrinks st st' : engine_step st st' → shrinks st st'.
Proof.
  intros [[l1 l2 s1 s2 Hwf H1 H2 Hs1 Hs2 Hne He1 He2 Hsub]
         |[l s c st1 Hwf _ _ _ _ H | l s c st1 Hwf _ _ _ _ H]].
  - split; unfold store, set_heap; cbn [heap knowledge].
    + by rewrite length_insert.
    + done.
    + intros l s Hs. destruct (decide (l = l2)) as [->|Hl].
      * rewrite list_lookup_insert_eq by (by eapply lookup_lt_Some).
        eexists. split; [done|]. rewrite Hs2 in Hs. injection Hs as <-.
        cbn [cells]. set_solver.
      * rewrite list_lookup_insert_ne by done. by exists s.
  - by eapply mark_mine_shrinks_state.
  - by eapply mark_safe_shrinks_state.
Qed.

Lemma engine_steps_shrinks st st' : rtc engine_step st st' → shrinks st st'.
Proof.
  induction 1 as [|st1 st2 st3 H12 _ IH]; [apply shrinks_refl|].
  eapply shrinks_trans; [by apply engine_step_shrinks | done].
Qed.

Lemma told_steps_shrinks P Q st st' :
  rtc (told_step P Q) st st' → shrinks st st'.
Proof.
  induction 1 as [|st1 st2 st3 H12 _ IH]; [apply shrinks_refl|].
  eapply shrinks_trans; [|done].
  destruct H12; [by eapply mark_mine_shrinks_state
                | by eapply mark_safe_shrinks_state].
Qed.

(** X9.  What [add_knowledge] changes.  The board stays; the revealed
    cell, and nothing else, joins [moves_made]; no known safe cell and no
    known mine is forgotten; exactly one Sentence object is created; no
    other sentence joins the knowledge list; and no sentence gains a
    cell. *)
Theorem add_knowledge_changes (c : cell) (n : Z) (st st' : AI) :
  wf st → add_knowledge c n st = Ok st' →
  height st' = height st ∧ width st' = width st
  ∧ moves_made st' = {[c]} ∪ moves_made st
  ∧ safes st ⊆ safes st' ∧ mines st ⊆ mines st'
  ∧ length (heap st') = S (length (heap st))
  ∧ knowledge st' ⊆ knowledge st ++ [length (heap st)]
  ∧ (∀ l s, heap st !! l = Some s →
       ∃ s', heap st' !! l = Some s' ∧ cells s' ⊆ cells s).
Proof.
  intros Hwf Hrun.
  pose proof (add_knowledge_frame _ _ _ _ Hwf Hrun) as (Hh & Hw & Hmv & Hs & Hm).
  split_and!; [done | done | done | set_solver | done | | |].
  all: destruct (add_knowledge_run c n st Hwf)
         as (st1 & st2 & st'' & Hrun' & H1 & H2 & H3);
       rewrite Hrun in Hrun'; injection Hrun' as <-;
       assert (wf (set_moves_made (λ m, {[c]} ∪ m) st)) as Hwf0 by done;
       apply mark_safe_shrinks_state in H1 as [Hl1 Hk1 Hc1]; [|done];
       apply told_steps_shrinks in H2 as [Hl2 Hk2 Hc2];
       apply engine_steps_shrinks in H3 as [Hl3 Hk3 Hc3];
       unfold appended, set_knowledge, set_heap, set_moves_made in *;
       cbn [heap knowledge] in *.
  - rewrite Hl3, length_app, Hl2, Hl1. cbn [length]. lia.
  - intros l Hl. apply Hk3 in Hl.
    apply elem_of_app in Hl as [Hl|Hl]; apply elem_of_app; [left | right].
    + by apply Hk1, Hk2.
    + by rewrite <- Hl1, <- Hl2.
  - intros l s Hs0. destruct (Hc1 l s Hs0) as (s1 & Hs1 & Hsub1).
    destruct (Hc2 l s1 Hs1) as (s2 & Hs2 & Hsub2).
    destruct (Hc3 l s2) as (s3 & Hs3 & Hsub3).
    { rewrite lookup_app_l; [done | by eapply lookup_lt_Some]. }
    exists s3. split; [done | set_solver].
Qed.

Lemma add_knowledge_changes_witness :
  height mine_at_the_left = height (init 1 3)
  ∧ width mine_at_the_left = width (init 1 3)
  ∧ moves_made mine_at_the_left = {[(0,1)]} ∪ moves_made (init 1 3)
  ∧ safes (init 1 3) ⊆ safes mine_at_the_left
  ∧ mines (init 1 3) ⊆ mines mine_at_the_left
  ∧ length (heap mine_at_the_left) = S (length (heap (init 1 3)))
  ∧ knowledge mine_at_the_left
    ⊆ knowledge (init 1 3) ++ [length (heap (init 1 3))]
  ∧ (∀ l s, heap (init 1 3) !! l = Some s →
       ∃ s', heap mine_at_the_left !! l = Some s' ∧ cells s' ⊆ cells s).
Proof.
  apply (add_knowledge_changes (0,1) 1 (init 1 3) mine_at_the_left).
  - compute_done.
  - vm_compute. reflexivity.
Defined.

Lemma for_each_ext {A S} (f g : A → S → outcome S) l s :
  (∀ x s, f x s = g x s) → for_each f l s = for_each g l s.
Proof.
  intros Hfg. revert s. induction l as [|x l IH]; intros s; [done|].
  rewrite !for_each_cons, Hfg. destruct (g x s); [apply IH | done].
Qed.

(** [add_knowledge], step by step. *)
Lemma add_knowledge_unfold c n st st' :
  add_knowledge c n st = Ok st' →
  ∃ st1 st2 st3 cs k,
    mark_safe c (set_moves_made (λ m, {[c]} ∪ m) st) = Ok st1
    ∧ new_sentence st1 (neighbors (height st1) (width st1) c) n = (cs, k)
    ∧ (if bool_decide (k = 0) then for_each mark_safe (elements cs) st1
       else if bool_decide (len cs = k) then for_each mark_mine (elements cs) st1
       else Ok st1) = Ok st2
    ∧ mark_mines_safes (appended (mkSentence cs k) st2) = Ok st3
    ∧ draw_interferences st3 = Ok st'.
Proof.
  unfold add_knowledge. intros (st1 & H1 & H)%bind_Ok.
  destruct (new_sentence st1 (neighbors (height st1) (width st1) c) n)
    as [cs k] eqn:Hns.
  apply bind_Ok in H as (st2 & H2 & H).
  apply bind_Ok in H as (st3 & H3 & H4).
  exists st1, st2, st3, cs, k. split_and!; [done | done | | done | done].
  rewrite <- H2. repeat case_bool_decide; [| |done].
  - apply for_each_ext. intros x s. by rewrite mark_safe_added.
  - apply for_each_ext. intros x s. by rewrite mark_mine_added.
Qed.

(** X10.  The new sentence is resolved on the spot.  When its count is 0,
    all its cells, the neighbours not moved on, are known safe when
    [add_knowledge] returns; when its count is not 0 and equals the number
    of its cells, all of them are known mines. *)
Theorem new_sentence_resolved (c : cell) (n : Z) (st st' : AI) :
  wf st → add_knowledge c n st = Ok st' →
  let N := neighbors (height st) (width st) c in
  let k := n - len (N ∩ moves_made st ∩ mines st) in
  (k = 0 → N ∖ moves_made st ⊆ safes st')
  ∧ (k ≠ 0 → len (N ∖ moves_made st) = k → N ∖ moves_made st ⊆ mines st').
Proof.
  intros Hwf Hrun N k.
  destruct (add_knowledge_unfold _ _ _ _ Hrun)
    as (st1 & st2 & st3 & cs & k' & H1 & Hns & H2 & H3 & H4).
  assert (wf (set_moves_made (λ m, {[c]} ∪ m) st)) as Hwf0 by done.
  pose proof (mark_safe_frame _ _ _ Hwf0 H1) as ([Hh1 Hw1 Hmv1 _ _] & Hs1 & Hm1).
  assert (wf st1) as Hwf1.
  { rewrite mark_safe_spec in H1 by done. injection H1 as <-. by apply updated_wf. }
  cbn [set_moves_made height width moves_made mines safes] in *.
  assert (c ∉ N) as HcN by (unfold N; rewrite elem_of_neighbors; tauto).
  rewrite new_sentence_spec, excluded_moves in Hns by (rewrite Hmv1; set_solver).
  rewrite Hh1, Hw1, Hmv1, Hm1 in Hns. fold N in Hns.
  clearbody N.
  assert (N ∖ ({[c]} ∪ moves_made st) = N ∖ moves_made st) as E1 by set_solver.
  assert (N ∩ ({[c]} ∪ moves_made st) ∩ mines st = N ∩ moves_made st ∩ mines st)
    as E2 by set_solver.
  rewrite E1, E2 in Hns. clear E1 E2. fold k in Hns. clearbody k.
  injection Hns as <- <-.
  set (cs := N ∖ moves_made st) in *. clearbody cs.
  assert (wf st2 ∧ (k = 0 → cs ⊆ safes st2)
          ∧ (k ≠ 0 → len cs = k → cs ⊆ mines st2)) as (Hwf2 & Hsafe & Hmine).
  { destruct (elements cs) as [|x xs] eqn:Hel.
    { apply elements_empty_inv, leibniz_equiv in Hel. rewrite Hel.
      repeat case_bool_decide; cbn [for_each] in H2; injection H2 as <-;
        (split; [done | split; intros; set_solver]). }
    assert (cs = list_to_set (x :: xs)) as Hcs
      by by rewrite <- Hel, list_to_set_elements_L.
    case_bool_decide as Hk; [|case_bool_decide as Hlen].
    - rewrite mark_safes_closed in H2 by done. injection H2 as <-.
      split; [by apply updated_wf|]. split; [|done].
      intros _. unfold updated, set_safes. cbn [safes]. rewrite Hcs. set_solver.
    - rewrite mark_mines_closed in H2; [|done|].
      2:{ rewrite <- Hel. apply NoDup_elements. }
      injection H2 as <-.
      split; [by apply updated_wf|]. split; [done|].
      intros _ _. unfold updated, set_mines. cbn [mines]. rewrite Hcs. set_solver.
    - injection H2 as <-. done. }
  assert (frame st2 st') as [_ _ _ Hm' Hs'].
  { destruct (mark_mines_safes_steps _ (appended_wf (mkSentence cs k) st2 Hwf2))
      as (st3' & H3' & Hsteps).
    rewrite H3 in H3'. injection H3' as <-.
    assert (rtc engine_step (appended (mkSentence cs k) st2) st3) as Hsteps'
      by (eapply rtc_subrel; [|done]; intros ???; by right).
    destruct (draw_interferences_steps st3) as (st'' & H4' & Hsteps4 & _).
    { eapply engine_steps_wf; [by apply appended_wf | done]. }
    rewrite H4 in H4'. injection H4' as <-.
    apply engine_steps_frame in Hsteps' as [], Hsteps4 as [].
    unfold appended, set_knowledge, set_heap in *.
    cbn [height width moves_made mines safes] in *.
    split; [congruence.. | set_solver | set_solver]. }
  split; intros; set_solver.
Qed.

Lemma new_sentence_resolved_witness :
  (1 - len (neighbors (height (init 1 3)) (width (init 1 3)) (0,0)
            ∩ moves_made (init 1 3) ∩ mines (init 1 3)) = 0 →
   neighbors (height (init 1 3)) (width (init 1 3)) (0,0) ∖ moves_made (init 1 3)
   ⊆ safes mine_in_the_middle)
  ∧ (1 - len (neighbors (height (init 1 3)) (width (init 1 3)) (0,0)
              ∩ moves_made (init 1 3) ∩ mines (init 1 3)) ≠ 0 →
     len (neighbors (height (init 1 3)) (width (init 1 3)) (0,0)
          ∖ moves_made (init 1 3))
     = 1 - len (neighbors (height (init 1 3)) (width (init 1 3)) (0,0)
                ∩ moves_made (init 1 3) ∩ mines (init 1 3)) →
     neighbors (height (init 1 3)) (width (init 1 3)) (0,0) ∖ moves_made (init 1 3)
     ⊆ mines mine_in_the_middle).
Proof.
  apply (new_sentence_resolved (0,0) 1 (init 1 3) mine_in_the_middle).
  - compute_done.
  - vm_compute. reflexivity.
Defined.

(** ** The game: list indexing *)

Lemma getitem_lookup {A} (l : list A) (i : Z) :
  0 ≤ i →
  Minesweeper.getitem l i
  = match l !! Z.to_nat i with
    | Some a => Minesweeper.Return a
    | None => Minesweeper.Throw Minesweeper.IndexError
    end.
Proof.
  intros Hi. unfold Minesweeper.getitem.
  rewrite (bool_decide_eq_false_2 (i < 0)) by lia.
  by rewrite (bool_decide_eq_true_2 (0 ≤ i)).
Qed.

Lemma getitem_wrap {A} (l : list A) (i : Z) :
  - Z.of_nat (length l) ≤ i < 0 →
  Minesweeper.getitem l i = Minesweeper.getitem l (i + Z.of_nat (length l)).
Proof.
  intros Hi. unfold Minesweeper.getitem.
  rewrite (bool_decide_eq_true_2 (i < 0)) by lia.
  by rewrite (bool_decide_eq_false_2 (i + _ < 0)) by lia.
Qed.

Lemma getitem_out {A} (l : list A) (i : Z) :
  i < - Z.of_nat (length l) ∨ Z.of_nat (length l) ≤ i →
  Minesweeper.getitem l i = Minesweeper.Throw Minesweeper.IndexError.
Proof.
  intros Hi. unfold Minesweeper.getitem. cbv zeta.
  destruct (decide (i < 0)).
  - rewrite (bool_decide_eq_true_2 (i < 0)) by done.
    rewrite (bool_decide_eq_false_2 (0 ≤ i + _)); [done | lia].
  - rewrite (bool_decide_eq_false_2 (i < 0)) by done.
    rewrite (bool_decide_eq_true_2 (0 ≤ i)) by lia.
    rewrite lookup_ge_None_2; [done | lia].
Qed.

Lemma board_of_length h w M : length (board_of h w M) = Z.to_nat h.
Proof. unfold board_of. by rewrite length_fmap, length_seqZ. Qed.

Lemma board_of_lookup h w M (i : Z) :
  0 ≤ i < h →
  board_of h w M !! Z.to_nat i
  = Some ((λ j, bool_decide ((i, j) ∈ M)) <$> seqZ 0 w).
Proof.
  intros Hi. unfold board_of. rewrite list_lookup_fmap.
  rewrite (lookup_seqZ_lt 0 h (Z.to_nat i)) by lia.
  by rewrite Z.add_0_l, Z2Nat.id by lia.
Qed.

Lemma row_lookup (f : Z → bool) w (j : Z) :
  0 ≤ j < w → (f <$> seqZ 0 w) !! Z.to_nat j = Some (f j).
Proof.
  intros Hj. rewrite list_lookup_fmap.
  rewrite (lookup_seqZ_lt 0 w (Z.to_nat j)) by lia.
  by rewrite Z.add_0_l, Z2Nat.id by lia.
Qed.

Lemma board_at_board_of h w M i j :
  0 ≤ i < h → 0 ≤ j < w →
  Minesweeper.board_at (board_of h w M) i j
  = Minesweeper.Return (bool_decide ((i, j) ∈ M)).
Proof.
  intros Hi Hj. unfold Minesweeper.board_at.
  rewrite getitem_lookup, board_of_lookup by lia. cbn.
  by rewrite getitem_lookup, row_lookup by lia.
Qed.

Lemma getitem_mod {A} (l : list A) (i : Z) :
  - Z.of_nat (length l) ≤ i < Z.of_nat (length l) →
  Minesweeper.getitem l i = Minesweeper.getitem l (i `mod` Z.of_nat (length l)).
Proof.
  intros Hi. destruct (decide (i < 0)) as [Hneg|Hpos].
  - rewrite getitem_wrap by lia. f_equal.
    apply (Z.mod_unique i (Z.of_nat (length l)) (-1)); lia.
  - by rewrite Z.mod_small by lia.
Qed.

Lemma board_at_wrap h w M i j :
  - h ≤ i < h → - w ≤ j < w →
  Minesweeper.board_at (board_of h w M) i j
  = Minesweeper.Return (bool_decide ((i `mod` h, j `mod` w) ∈ M)).
Proof.
  intros Hi Hj. unfold Minesweeper.board_at.
  assert (Z.of_nat (length (board_of h w M)) = h) as Hlen
    by (rewrite board_of_length; lia).
  rewrite getitem_mod by lia. rewrite Hlen.
  assert (0 ≤ i `mod` h < h) as Hi' by (apply Z.mod_pos_bound; lia).
  assert (0 ≤ j `mod` w < w) as Hj' by (apply Z.mod_pos_bound; lia).
  rewrite getitem_lookup, board_of_lookup by lia. cbn [mbind Minesweeper.result_bind].
  set (row := (λ j0, bool_decide ((i `mod` h, j0) ∈ M)) <$> seqZ 0 w).
  assert (Z.of_nat (length row) = w) as Hrow
    by (unfold row; rewrite length_fmap, length_seqZ; lia).
  rewrite getitem_mod by lia. rewrite Hrow.
  rewrite getitem_lookup by lia. unfold row. by rewrite row_lookup.
Qed.

Lemma board_at_out h w M i j :
  i < - h ∨ h ≤ i ∨ j < - w ∨ w ≤ j →
  Minesweeper.board_at (board_of h w M) i j
  = Minesweeper.Throw Minesweeper.IndexError.
Proof.
  intros Hout. unfold Minesweeper.board_at.
  destruct (decide (- h ≤ i < h)) as [Hi|Hi].
  - assert (Z.of_nat (length (board_of h w M)) = h) as Hlen
      by (rewrite board_of_length; lia).
    rewrite getitem_mod by lia. rewrite Hlen.
    assert (0 ≤ i `mod` h < h) as Hi' by (apply Z.mod_pos_bound; lia).
    rewrite getitem_lookup, board_of_lookup by lia.
    cbn [mbind Minesweeper.result_bind].
    apply getitem_out. rewrite length_fmap, length_seqZ. lia.
  - rewrite getitem_out; [done|]. rewrite board_of_length. lia.
Qed.

Lemma is_mine_board_of g c :
  coherent g →
  0 ≤ c.1 < Minesweeper.height g → 0 ≤ c.2 < Minesweeper.width g →
  Minesweeper.is_mine g c = Minesweeper.Return (bool_decide (c ∈ Minesweeper.mines g)).
Proof.
  intros [Hb _] Hi Hj. destruct c as [i j]. unfold Minesweeper.is_mine.
  rewrite Hb. by apply board_at_board_of.
Qed.

Lemma left_mine_game_coherent : coherent left_mine_game.
Proof.
  split.
  - vm_compute. reflexivity.
  - intros c Hc. cbn in Hc. apply elem_of_singleton in Hc as ->. cbn. lia.
Qed.

(** X11.  [is_mine] on a game whose field shows its mines.  For a cell
    of the board it tells whether the cell holds a mine.  A negative
    index counts from the end, as Python lists do: for a row in
    [-height, height) and a column in [-width, width) it answers for the
    cell [(i mod height, j mod width)].  For every other cell it raises
    IndexError. *)
Theorem is_mine_spec (g : Minesweeper.Game) (i j : Z) :
  coherent g →
  let h := Minesweeper.height g in
  let w := Minesweeper.width g in
  (0 ≤ i < h → 0 ≤ j < w →
   Minesweeper.is_mine g (i, j)
   = Minesweeper.Return (bool_decide ((i, j) ∈ Minesweeper.mines g)))
  ∧ (- h ≤ i < h → - w ≤ j < w →
     Minesweeper.is_mine g (i, j)
     = Minesweeper.Return
         (bool_decide ((i `mod` h, j `mod` w) ∈ Minesweeper.mines g)))
  ∧ (i < - h ∨ h ≤ i ∨ j < - w ∨ w ≤ j →
     Minesweeper.is_mine g (i, j) = Minesweeper.Throw Minesweeper.IndexError).
Proof.
  intros Hg h w. pose proof (coherent_board g Hg) as Hb.
  unfold Minesweeper.is_mine. rewrite Hb. fold h w. split_and!.
  - intros. by apply board_at_board_of.
  - intros. by apply board_at_wrap.
  - intros. by apply board_at_out.
Qed.

Lemma is_mine_spec_witness :
  (0 ≤ -1 < 1 → 0 ≤ -3 < 3 →
   Minesweeper.is_mine left_mine_game (-1, -3)
   = Minesweeper.Return (bool_decide ((-1, -3) ∈ Minesweeper.mines left_mine_game)))
  ∧ (- 1 ≤ -1 < 1 → - 3 ≤ -3 < 3 →
     Minesweeper.is_mine left_mine_game (-1, -3)
     = Minesweeper.Return
         (bool_decide (((-1) `mod` 1, (-3) `mod` 3) ∈ Minesweeper.mines left_mine_game)))
  ∧ (-1 < - 1 ∨ 1 ≤ -1 ∨ -3 < - 3 ∨ 3 ≤ -3 →
     Minesweeper.is_mine left_mine_game (-1, -3)
     = Minesweeper.Throw Minesweeper.IndexError).
Proof.
  apply (is_mine_spec left_mine_game (-1) (-3)).
  apply left_mine_game_coherent.
Defined.

(** ** The game: the number of nearby mines *)

(** The two loops of [nearby_mines] and of the neighbours of [add_knowledge],
    side by side. *)
Section nearby.
Context (g : Minesweeper.Game) (c : cell).
Hypothesis Hg : coherent g.

Local Abbreviation M := (Minesweeper.mines g).
Local Abbreviation ok := (λ '(row, col),
  bool_decide (0 ≤ row < Minesweeper.height g)
  && bool_decide (0 ≤ col < Minesweeper.width g)
  && negb (bool_decide ((row, col) = c))).
Local Abbreviation inner := (λ (i j count : Z),
  if bool_decide ((i, j) = c) then Minesweeper.Return count
  else if bool_decide (0 ≤ i < Minesweeper.height g)
          && bool_decide (0 ≤ j < Minesweeper.width g)
  then b ← Minesweeper.board_at (Minesweeper.board g) i j;
       Minesweeper.Return (if b : bool then count + 1 else count)
  else Minesweeper.Return count).

Lemma len_add_inter (x : cell) (A : gset cell) :
  x ∉ A →
  len (({[x]} ∪ A) ∩ M) = (if bool_decide (x ∈ M) then 1 else 0) + len (A ∩ M).
Proof.
  intros Hx. case_bool_decide as HM.
  - replace (({[x]} ∪ A) ∩ M) with ({[x]} ∪ (A ∩ M)) by set_solver.
    unfold len. rewrite size_union, size_singleton by set_solver. lia.
  - replace (({[x]} ∪ A) ∩ M) with (A ∩ M) by set_solver. lia.
Qed.

Lemma nearby_row row cols : ∀ (acc : gset cell) (k : Z),
  NoDup cols → (∀ col, col ∈ cols → (row, col) ∉ acc) →
  Minesweeper.for_loop (inner row) cols k
  = Minesweeper.Return
      (k + len (foldl (λ acc col,
                  if ok (row, col) then {[(row, col)]} ∪ acc else acc)
                acc cols ∩ M)
         - len (acc ∩ M)).
Proof.
  induction cols as [|col cols IH]; intros acc k Hnd Hfresh;
    cbn [Minesweeper.for_loop foldl].
  { f_equal. lia. }
  apply NoDup_cons in Hnd as [Hcol Hnd].
  assert (∀ col', col' ∈ cols → (row, col') ∉ acc) as Hfresh'
    by (intros ??; apply Hfresh; by right).
  destruct (decide ((row, col) = c)) as [Hc|Hc].
  { rewrite !(bool_decide_eq_true_2 ((row, col) = c)) by done.
    cbn [negb]. rewrite andb_false_r. cbn [mbind Minesweeper.result_bind].
    by apply IH. }
  rewrite !(bool_decide_eq_false_2 ((row, col) = c)) by done.
  cbn [negb]. rewrite andb_true_r.
  destruct (bool_decide (0 ≤ row < Minesweeper.height g)
            && bool_decide (0 ≤ col < Minesweeper.width g)) eqn:Hin.
  - apply andb_true_iff in Hin as [Hi%bool_decide_eq_true Hj%bool_decide_eq_true].
    assert (Minesweeper.board_at (Minesweeper.board g) row col
            = Minesweeper.Return (bool_decide ((row, col) ∈ M))) as ->.
    { destruct Hg as [Hb _]. rewrite Hb. by apply board_at_board_of. }
    cbn [mbind Minesweeper.result_bind].
    rewrite (IH ({[(row, col)]} ∪ acc)); [|done|].
    2:{ intros col' Hcol'. rewrite elem_of_union, elem_of_singleton.
        intros [[= ->]|?]; [done|]. by eapply Hfresh'. }
    f_equal. rewrite (len_add_inter (row, col) acc) by (apply Hfresh; by left).
    destruct (bool_decide ((row, col) ∈ M)); lia.
  - cbn [mbind Minesweeper.result_bind]. by apply IH.
Qed.

Lemma nearby_window rows cols : ∀ (acc : gset cell) (k : Z),
  NoDup rows → NoDup cols → (∀ x, x ∈ acc → x.1 ∉ rows) →
  Minesweeper.for_loop (λ i count, Minesweeper.for_loop (inner i) cols count) rows k
  = Minesweeper.Return
      (k + len (foldl (λ acc row,
                  foldl (λ acc col,
                      if ok (row, col) then {[(row, col)]} ∪ acc else acc)
                    acc cols) acc rows ∩ M)
         - len (acc ∩ M)).
Proof.
  induction rows as [|row rows IH]; intros acc k Hnd Hcols Hfresh;
    cbn [Minesweeper.for_loop foldl].
  { f_equal. lia. }
  apply NoDup_cons in Hnd as [Hrow Hnd].
  rewrite (nearby_row _ _ acc); [|done|].
  2:{ intros col _ Hin. apply Hfresh in Hin. apply Hin. by left. }
  cbn [mbind Minesweeper.result_bind].
  rewrite (IH (foldl (λ acc col,
                 if ok (row, col) then {[(row, col)]} ∪ acc else acc)
               acc cols)); [|done|done|].
  - f_equal. lia.
  - intros x Hx.
    pose proof (proj1 (elem_of_row_add ok row cols acc x)) as H.
    cbv beta iota in H. apply H in Hx as [Hx|(Hx & _ & _)].
    + intros ?. eapply Hfresh; [done|]. by right.
    + by rewrite Hx.
Qed.

Lemma nearby_mines_neighbors :
  Minesweeper.nearby_mines g c
  = Minesweeper.Return
      (len (neighbors (Minesweeper.height g) (Minesweeper.width g) c ∩ M)).
Proof.
  unfold Minesweeper.nearby_mines, neighbors. destruct c as [i j] eqn:Ec.
  cbn [fst snd]. rewrite <- Ec.
  rewrite (nearby_window _ _ ∅ 0); [| apply NoDup_seqZ | apply NoDup_seqZ | set_solver].
  f_equal. replace (len (∅ ∩ M)) with 0; [|by rewrite intersection_empty_l_L].
  rewrite Z.add_0_l, Z.sub_0_r. by subst c.
Qed.

End nearby.

(** X12.  [nearby_mines] returns, for every cell (also one off the
    board), the number of mines among the neighbours that [add_knowledge]
    collects for that cell; it never raises IndexError, and the number is
    between 0 and 8. *)
Theorem nearby_mines_spec (g : Minesweeper.Game) (c : cell) :
  coherent g →
  ∃ n, Minesweeper.nearby_mines g c = Minesweeper.Return n
       ∧ n = len (neighbors (Minesweeper.height g) (Minesweeper.width g) c
                  ∩ Minesweeper.mines g)
       ∧ 0 ≤ n ≤ 8.
Proof.
  intros Hg. eexists. split; [by apply nearby_mines_neighbors|].
  split; [done|]. split; [unfold len; lia|].
  etransitivity;
    [|apply (len_neighbors_le (Minesweeper.height g) (Minesweeper.width g) c)].
  apply inj_le, subseteq_size. set_solver.
Qed.

Lemma nearby_mines_spec_witness :
  ∃ n, Minesweeper.nearby_mines left_mine_game (0, 1) = Minesweeper.Return n
       ∧ n = len (neighbors (Minesweeper.height left_mine_game)
                    (Minesweeper.width left_mine_game) (0, 1)
                  ∩ Minesweeper.mines left_mine_game)
       ∧ 0 ≤ n ≤ 8.
Proof.
  apply (nearby_mines_spec left_mine_game (0, 1)).
  apply left_mine_game_coherent.
Defined.

(** ** The game: the constructor *)

Lemma foldl_snoc {A B} (f : A → B) (l : list A) : ∀ acc,
  foldl (λ acc a, acc ++ [f a]) acc l = acc ++ (f <$> l).
Proof.
  induction l as [|a l IH]; intros acc; cbn [foldl fmap list_fmap].
  - by rewrite app_nil_r.
  - by rewrite IH, <- app_assoc.
Qed.

Lemma empty_board_spec h w : Minesweeper.empty_board h w = board_of h w ∅.
Proof.
  unfold Minesweeper.empty_board, board_of, range.
  rewrite (foldl_snoc (λ _, foldl (λ row _, row ++ [false]) [] (seqZ 0 (w - 0)))).
  rewrite (foldl_snoc (λ _, false)), !Z.sub_0_r. cbn [app].
  apply list_fmap_ext. intros _ i _. apply list_fmap_ext. intros _ j _.
  symmetry. apply bool_decide_eq_false_2, not_elem_of_empty.
Qed.

Lemma setitem_insert {A} (l : list A) (i : Z) (a : A) :
  0 ≤ i < Z.of_nat (length l) →
  Minesweeper.setitem l i a = Minesweeper.Return (<[Z.to_nat i := a]> l).
Proof.
  intros Hi. unfold Minesweeper.setitem. cbv zeta.
  rewrite (bool_decide_eq_false_2 (i < 0)) by lia.
  by rewrite (bool_decide_eq_true_2 (0 ≤ i < _)).
Qed.

Lemma board_of_insert h w M i j :
  0 ≤ i < h → 0 ≤ j < w →
  <[Z.to_nat i :=
      <[Z.to_nat j := true]> ((λ j, bool_decide ((i, j) ∈ M)) <$> seqZ 0 w)]>
    (board_of h w M)
  = board_of h w ({[(i, j)]} ∪ M).
Proof.
  intros Hi Hj. apply list_eq. intros a.
  destruct (decide (a = Z.to_nat i)) as [->|Ha].
  - rewrite list_lookup_insert_eq by (rewrite board_of_length; lia).
    rewrite board_of_lookup by done. f_equal.
    apply list_eq. intros b.
    destruct (decide (b = Z.to_nat j)) as [->|Hb].
    + rewrite list_lookup_insert_eq by (rewrite length_fmap, length_seqZ; lia).
      rewrite row_lookup by done.
      f_equal. symmetry. apply bool_decide_eq_true_2. set_solver.
    + rewrite list_lookup_insert_ne by done. rewrite !list_lookup_fmap.
      destruct (seqZ 0 w !! b) as [z|] eqn:E; [|done]. cbn. f_equal.
      apply lookup_seqZ in E as [-> _].
      apply bool_decide_ext. rewrite elem_of_union, elem_of_singleton.
      split; [auto|]. intros [[= ?]|?]; [lia | done].
  - rewrite list_lookup_insert_ne by done. unfold board_of.
    rewrite !list_lookup_fmap.
    destruct (seqZ 0 h !! a) as [z|] eqn:E; [|done]. cbn. f_equal.
    apply lookup_seqZ in E as [-> _].
    apply list_fmap_ext. intros _ y _.
    apply bool_decide_ext. rewrite elem_of_union, elem_of_singleton.
    split; [auto|]. intros [[= ? ?]|?]; [lia | done].
Qed.

Lemma drawn_cons h w r draws :
  drawn h w (r :: draws)
  = {[(Z.of_nat r.1 `mod` h, Z.of_nat r.2 `mod` w)]} ∪ drawn h w draws.
Proof. done. Qed.

Lemma place_spec h w n draws : ∀ M,
  (∀ c, c ∈ M → 0 ≤ c.1 < h ∧ 0 ≤ c.2 < w) →
  place_post h w n draws M (Minesweeper.place h w n draws (M, board_of h w M)).
Proof.
  induction draws as [|[r1 r2] draws IH]; intros M HM.
  - cbn [Minesweeper.place]. case_bool_decide as Hn; cbn.
    + split; [done|]. intros _ _. unfold drawn. cbn.
      rewrite (right_id_L ∅ (∪)). lia.
    + split_and!; [done | done | done | done | set_solver].
  - cbn [Minesweeper.place]. case_bool_decide as Hn; cbn [place_post].
    2:{ split_and!; [done | done | done | done | set_solver]. }
    unfold Minesweeper.randrange.
    destruct (decide (h ≤ 0)) as [Hh|Hh].
    { rewrite (bool_decide_eq_true_2 (h ≤ 0)) by done.
      cbn [mbind Minesweeper.result_bind place_post]. split; [done | by left]. }
    rewrite (bool_decide_eq_false_2 (h ≤ 0)) by done.
    cbn [mbind Minesweeper.result_bind].
    destruct (decide (w ≤ 0)) as [Hw|Hw].
    { rewrite (bool_decide_eq_true_2 (w ≤ 0)) by done.
      cbn [mbind Minesweeper.result_bind place_post]. split; [done | by right]. }
    rewrite (bool_decide_eq_false_2 (w ≤ 0)) by done.
    cbn [mbind Minesweeper.result_bind].
    set (i := Z.of_nat r1 `mod` h). set (j := Z.of_nat r2 `mod` w).
    assert (0 ≤ i < h) as Hi by (apply Z.mod_pos_bound; lia).
    assert (0 ≤ j < w) as Hj by (apply Z.mod_pos_bound; lia).
    rewrite board_at_board_of by done. cbn [mbind Minesweeper.result_bind].
    assert (drawn h w ((r1, r2) :: draws) = {[(i, j)]} ∪ drawn h w draws)
      as Hdrawn by done.
    destruct (decide ((i, j) ∈ M)) as [Hin|Hin].
    + rewrite (bool_decide_eq_true_2 _ Hin). cbn [negb].
      specialize (IH M HM).
      assert (M ∪ drawn h w ((r1, r2) :: draws) = M ∪ drawn h w draws) as Heq
        by (rewrite Hdrawn; set_solver).
      destruct (Minesweeper.place h w n draws (M, board_of h w M))
        as [[M' b']|[]]; cbn [place_post] in *; rewrite ?Heq; done.
    + rewrite (bool_decide_eq_false_2 _ Hin). cbn [negb].
      rewrite getitem_lookup, board_of_lookup by lia.
      cbn [mbind Minesweeper.result_bind].
      rewrite setitem_insert by (rewrite length_fmap, length_seqZ; lia).
      cbn [mbind Minesweeper.result_bind].
      rewrite setitem_insert by (rewrite board_of_length; lia).
      cbn [mbind Minesweeper.result_bind].
      rewrite board_of_insert by done.
      assert (∀ c, c ∈ {[(i, j)]} ∪ M → 0 ≤ c.1 < h ∧ 0 ≤ c.2 < w) as HM'.
      { intros c [->%elem_of_singleton|?]%elem_of_union; [done | by apply HM]. }
      specialize (IH _ HM').
      assert (len ({[(i, j)]} ∪ M) = len M + 1) as Hlen.
      { unfold len. rewrite size_union, size_singleton by set_solver. lia. }
      assert (M ∪ drawn h w ((r1, r2) :: draws)
              = {[(i, j)]} ∪ M ∪ drawn h w draws) as Heq
        by (rewrite Hdrawn; set_solver).
      destruct (Minesweeper.place h w n draws
                  ({[(i, j)]} ∪ M, board_of h w ({[(i, j)]} ∪ M)))
        as [[M' b']|[]]; cbn [place_post] in *; rewrite ?Heq.
      * destruct IH as (? & ? & ? & ? & ?). split_and!; [done..| set_solver | done].
      * done.
      * lia.
      * destruct IH as [_ IH]. split; [done|]. intros ?? ?. apply IH; [done..|]. lia.
Qed.

Lemma init_spec h w n draws :
  place_post h w n draws ∅
    (Minesweeper.place h w n draws (∅, Minesweeper.empty_board h w)).
Proof. rewrite empty_board_spec. apply place_spec. set_solver. Qed.

(** At most [h * w] cells are on the board. *)
Lemma len_on_board (h w : Z) (M : gset cell) :
  0 ≤ h → 0 ≤ w →
  (∀ c, c ∈ M → 0 ≤ c.1 < h ∧ 0 ≤ c.2 < w) → len M ≤ h * w.
Proof.
  intros Hh Hw HM.
  assert (M ⊆ list_to_set (list_prod (seqZ 0 h) (seqZ 0 w))) as Hsub.
  { intros [i j] Hc. apply HM in Hc. cbn [fst snd] in Hc.
    apply elem_of_list_to_set, list_elem_of_In, in_prod;
      apply list_elem_of_In, elem_of_seqZ; lia. }
  apply subseteq_size in Hsub.
  pose proof (size_list_to_set_le (list_prod (seqZ 0 h) (seqZ 0 w))) as Hle.
  rewrite length_prod, !length_seqZ in Hle.
  assert (Z.of_nat (Z.to_nat h * Z.to_nat w) = h * w) as <-
    by (rewrite Nat2Z.inj_mul, !Z2Nat.id; lia).
  unfold len. lia.
Qed.

(** X13.  The game that [Minesweeper.__init__] returns has the height
    and width it was given; its field shows exactly its mines, which are
    cells of the board; it has as many mines as were asked for, all of
    them cells that the random numbers selected; no mine is found yet,
    and the game is won from the start exactly when no mine was asked
    for. *)
Theorem init_builds (h w n : Z) (draws : list (nat * nat)) (g : Minesweeper.Game) :
  Minesweeper.init h w n draws = Minesweeper.Return g →
  Minesweeper.height g = h ∧ Minesweeper.width g = w
  ∧ coherent g
  ∧ len (Minesweeper.mines g) = n
  ∧ Minesweeper.mines g ⊆ drawn h w draws
  ∧ Minesweeper.mines_found g = ∅
  ∧ (Minesweeper.won g = true ↔ n = 0).
Proof.
  unfold Minesweeper.init. pose proof (init_spec h w n draws) as Hspec.
  destruct (Minesweeper.place h w n draws (∅, Minesweeper.empty_board h w))
    as [[M b]|e]; cbn [mbind Minesweeper.result_bind]; [|done].
  intros [= <-]. cbn [place_post] in Hspec.
  destruct Hspec as (-> & HM & Hlen & _ & Hsub).
  split_and!; cbn; [done | done | by split | done | set_solver | done |].
  unfold Minesweeper.won. cbn. rewrite bool_decide_eq_true, <- Hlen.
  split; [by intros <-|]. intros H0. symmetry. by apply len_0.
Qed.

Lemma init_builds_witness :
  Minesweeper.height left_mine_game = 1 ∧ Minesweeper.width left_mine_game = 3
  ∧ coherent left_mine_game
  ∧ len (Minesweeper.mines left_mine_game) = 1
  ∧ Minesweeper.mines left_mine_game ⊆ drawn 1 3 [(0, 3); (5, 6)]%nat
  ∧ Minesweeper.mines_found left_mine_game = ∅
  ∧ (Minesweeper.won left_mine_game = true ↔ 1 = 0).
Proof.
  apply (init_builds 1 3 1 [(0, 3); (5, 6)]%nat left_mine_game).
  vm_compute. reflexivity.
Defined.

(** X14.  On a board with at least one cell, [Minesweeper.__init__]
    returns exactly when the number of mines asked for is not negative
    and the random numbers select at least that many different cells. *)
Theorem init_returns (h w n : Z) (draws : list (nat * nat)) :
  0 < h → 0 < w →
  (∃ g, Minesweeper.init h w n draws = Minesweeper.Return g)
  ↔ 0 ≤ n ≤ len (drawn h w draws).
Proof.
  intros Hh Hw. unfold Minesweeper.init.
  pose proof (init_spec h w n draws) as Hspec.
  destruct (Minesweeper.place h w n draws (∅, Minesweeper.empty_board h w))
    as [[M b]|e]; cbn [mbind Minesweeper.result_bind place_post] in *.
  - destruct Hspec as (_ & _ & <- & _ & Hsub). split; [intros _|by eauto].
    split; [unfold len; lia|]. apply subseteq_size in Hsub.
    rewrite (left_id_L ∅ (∪)) in Hsub. unfold len. lia.
  - split; [by intros [? ?]|]. intros Hn. exfalso.
    replace (len ∅) with 0 in Hspec by done.
    rewrite (left_id_L ∅ (∪)) in Hspec.
    destruct e; [done | lia |]. destruct Hspec as [_ Hspec]. by apply Hspec.
Qed.

Lemma init_returns_witness :
  (∃ g, Minesweeper.init 1 3 1 [(0, 3); (5, 6)]%nat = Minesweeper.Return g)
  ↔ 0 ≤ 1 ≤ len (drawn 1 3 [(0, 3); (5, 6)]%nat).
Proof. apply (init_returns 1 3 1 [(0, 3); (5, 6)]%nat); lia. Defined.

(** X15.  How [Minesweeper.__init__] ends otherwise.  It never raises
    IndexError.  Asked for no mine it returns, whatever the height and
    width.  Asked for a negative number of mines, or for more mines than
    the board has cells, it never returns, whatever the random numbers.
    Asked for a mine on a board without cells, [random.randrange] raises
    ValueError. *)
Theorem init_raises (h w n : Z) (draws : list (nat * nat)) :
  Minesweeper.init h w n draws ≠ Minesweeper.Throw Minesweeper.IndexError
  ∧ (n = 0 → ∃ g, Minesweeper.init h w n draws = Minesweeper.Return g)
  ∧ (0 ≤ h → 0 ≤ w → n < 0 ∨ h * w < n →
     ∃ e, Minesweeper.init h w n draws = Minesweeper.Throw e)
  ∧ (h ≤ 0 ∨ w ≤ 0 → n ≠ 0 → draws ≠ [] →
     Minesweeper.init h w n draws = Minesweeper.Throw Minesweeper.ValueError).
Proof.
  split_and!.
  - unfold Minesweeper.init. pose proof (init_spec h w n draws) as Hspec.
    destruct (Minesweeper.place h w n draws (∅, Minesweeper.empty_board h w))
      as [[M b]|[]]; cbn [mbind Minesweeper.result_bind place_post] in *; done.
  - intros ->. unfold Minesweeper.init. destruct draws as [|[r1 r2] draws];
      cbn [Minesweeper.place]; rewrite (bool_decide_eq_false_2 (len ∅ ≠ 0));
      cbn [mbind Minesweeper.result_bind]; try by eauto.
    all: by intros [].
  - intros Hh Hw Hn. unfold Minesweeper.init.
    pose proof (init_spec h w n draws) as Hspec.
    destruct (Minesweeper.place h w n draws (∅, Minesweeper.empty_board h w))
      as [[M b]|e]; cbn [mbind Minesweeper.result_bind place_post] in *;
      [|by eauto].
    destruct Hspec as (_ & HM & <- & _ & _). exfalso.
    apply len_on_board in HM; [|done..]. unfold len in *. lia.
  - intros Hhw Hn Hdraws. unfold Minesweeper.init.
    rewrite empty_board_spec.
    destruct draws as [|[r1 r2] draws]; [done|]. cbn [Minesweeper.place].
    rewrite (bool_decide_eq_true_2 (len ∅ ≠ n)) by (by intros <-).
    unfold Minesweeper.randrange.
    destruct (decide (h ≤ 0)) as [Hh|Hh].
    { by rewrite (bool_decide_eq_true_2 (h ≤ 0)) by done. }
    rewrite (bool_decide_eq_false_2 (h ≤ 0)) by done.
    cbn [mbind Minesweeper.result_bind].
    by rewrite (bool_decide_eq_true_2 (w ≤ 0)) by lia.
Qed.

(** ** The engine plays the game *)

Lemma is_mine_false g c :
  coherent g → Minesweeper.is_mine g c = Minesweeper.Return false →
  c ∉ Minesweeper.mines g.
Proof.
  intros Hg Hc Hin. pose proof (coherent_mines g Hg c Hin) as [Hi Hj].
  rewrite is_mine_board_of in Hc by done.
  by rewrite bool_decide_eq_true_2 in Hc.
Qed.

Lemma played_agrees g st :
  coherent g → played g st →
  agrees (Minesweeper.mines g) st ∧ observed st
  ∧ height st = Minesweeper.height g ∧ width st = Minesweeper.width g.
Proof.
  intros Hg. induction 1 as [|c n st st' _ IH Hc Hn Hrun|pick st _ IH|rnd st _ IH].
  - split_and!; [apply agrees_init | apply observed_init | done | done].
  - destruct IH as (Hag & Hob & Hh & Hw).
    assert (wf st) as Hwf by by apply reachable_wf, observed_reachable.
    destruct (add_knowledge_frame _ _ _ _ Hwf Hrun) as (Hh' & Hw' & _).
    split_and!; [|by eapply observed_add|congruence|congruence].
    eapply agrees_add; [done| |done]. split.
    + by apply is_mine_false.
    + rewrite nearby_mines_neighbors in Hn by done.
      injection Hn as <-. by rewrite Hh, Hw.
  - rewrite make_safe_move_state. done.
  - rewrite make_random_move_state. done.
Qed.

Lemma make_random_move_elem rnd st c :
  (make_random_move rnd st).1 = Some c →
  in_grid st c ∧ (c ∉ moves_made st) ∧ (c ∉ mines st).
Proof.
  unfold make_random_move. cbv zeta. case_bool_decide; cbn [fst]; [|done].
  intros Hc%list_elem_of_lookup_2. by apply elem_of_candidates in Hc.
Qed.

(** X16.  The engine plays the game: cells are revealed only where
    [is_mine] answers False, and [add_knowledge] is given the number that
    [nearby_mines] returns.  Then every cell that the engine knows as a
    mine holds a mine of the game, no cell that it knows as safe does,
    [make_safe_move] returns only cells of the board for which [is_mine]
    answers False, and [make_random_move] returns only cells for which
    [is_mine] answers. *)
Theorem game_play_sound (g : Minesweeper.Game) (st : AI) :
  coherent g → played g st →
  (∀ c, c ∈ mines st → Minesweeper.is_mine g c = Minesweeper.Return true)
  ∧ (∀ c, c ∈ safes st → c ∉ Minesweeper.mines g)
  ∧ (∀ pick c, (make_safe_move pick st).1 = Some c →
       Minesweeper.is_mine g c = Minesweeper.Return false)
  ∧ (∀ rnd c, (make_random_move rnd st).1 = Some c →
       ∃ b, Minesweeper.is_mine g c = Minesweeper.Return b).
Proof.
  intros Hg Hst.
  destruct (played_agrees g st Hg Hst) as (Hag & Hob & Hh & Hw).
  apply agrees_sound in Hag as [_ Hmines Hsafes _].
  apply observed_on_board in Hob as [_ Hboard].
  split_and!.
  - intros c Hc%Hmines. pose proof (coherent_mines g Hg c Hc) as [? ?].
    rewrite is_mine_board_of by done. by rewrite bool_decide_eq_true_2.
  - intros c Hc Hin. by apply (Hsafes c).
  - intros pick c [Hs Hm]%make_safe_move_elem%elem_of_difference.
    destruct (Hboard c Hs) as [[Hi Hj]|?]; [|done].
    rewrite Hh in Hi. rewrite Hw in Hj.
    rewrite is_mine_board_of by done.
    rewrite bool_decide_eq_false_2; [done|]. intros ?. by apply (Hsafes c).
  - intros rnd c ([Hi Hj] & _ & _)%make_random_move_elem.
    rewrite Hh in Hi. rewrite Hw in Hj.
    rewrite is_mine_board_of by done. by eexists.
Qed.

Lemma game_play_sound_witness :
  (∀ c, c ∈ mines mine_at_the_left →
        Minesweeper.is_mine left_mine_game c = Minesweeper.Return true)
  ∧ (∀ c, c ∈ safes mine_at_the_left → c ∉ Minesweeper.mines left_mine_game)
  ∧ (∀ pick c, (make_safe_move pick mine_at_the_left).1 = Some c →
       Minesweeper.is_mine left_mine_game c = Minesweeper.Return false)
  ∧ (∀ rnd c, (make_random_move rnd mine_at_the_left).1 = Some c →
       ∃ b, Minesweeper.is_mine left_mine_game c = Minesweeper.Return b).
Proof.
  apply (game_play_sound left_mine_game mine_at_the_left).
  - apply left_mine_game_coherent.
  - apply (played_reveal left_mine_game (0, 1) 1 (init 1 3)).
    + apply (played_init left_mine_game).
    + vm_compute. reflexivity.
    + vm_compute. reflexivity.
    + vm_compute. reflexivity.
Defined.
